(** * qubo-nn: the dataset-generation pipeline of [qubo_nn/pipeline.py]

    A shallow embedding of the parts of [Classification] and
    [ReverseRegression] that build the data tensor, the labels and the
    auxiliary regression targets, and the properties of these functions.

    Conventions.
    - Python exceptions are values of [exn]; a computation that may raise has
      type [result A].
    - A NumPy array is the list of its items along the first axis.
    - The process-global random generator is replaced by the outcome of its
      draws, passed as an argument.
    - Floating-point arithmetic is behind the interface [Float]; the only
      instance used for value-level statements is exact rational arithmetic.
    - The [float32] targets of the clause customizers hold integers; they
      are integers of [Z], and every addition rounds as [float32] does. *)

From Stdlib Require Import ZArith QArith Qminmax Qabs Lia Lqa.
From Stdlib Require Import String.
From stdpp Require Import base tactics option list sorting strings gmap.

Set Default Proof Using "Type".
Set Warnings "-register-all".
Local Open Scope nat_scope.

(** ** Exceptions *)

Inductive exn : Set :=
| IndexError | KeyError | TypeError | ValueError | OverflowError
| UnboundLocalError.

Inductive result (A : Type) : Type :=
| Ok (a : A)
| Raise (e : exn).
Arguments Ok {A} a.
Arguments Raise {A} e.

#[global] Instance result_ret : MRet result := fun A a => Ok a.
#[global] Instance result_bind : MBind result := fun A B f m =>
  match m with
  | Ok a => f a
  | Raise e => Raise e
  end.

#[global] Instance result_fmap : FMap result := fun A B f m =>
  match m with
  | Ok a => Ok (f a)
  | Raise e => Raise e
  end.

(** [for x in xs: s = body s x], stopping at the first exception. *)
Fixpoint for_in {S A : Type} (body : S -> A -> result S) (xs : list A) (s : S)
  : result S :=
  match xs with
  | [] => Ok s
  | x :: xs' => s' ← body s x; for_in body xs' s'
  end.

(** [i in range(n)] *)
Definition range (n : nat) : list nat := seq 0 n.

(** [seq[i]] on a list or along the first axis of an array, for [0 <= i]. *)
Definition getitem {A : Type} (l : list A) (i : nat) : result A :=
  match l !! i with
  | Some x => Ok x
  | None => Raise IndexError
  end.

(** ** The scrambler ([Classification._gen_data], lines 62-68) *)

Section Scrambler.
Context {A : Type}.

(** [m[[a, b]]]: indexing with a list of integers selects rows and copies
    them. *)
Definition getitem_rows (m : list (list A)) (idxs : list nat)
  : result (list (list A)) :=
  mapM (getitem m) idxs.

(** [m[[a, b]] = val]: the rows of [val] are stored at the listed places,
    in order. *)
Fixpoint setitem_rows (m : list (list A)) (idxs : list nat)
    (val : list (list A)) : result (list (list A)) :=
  match idxs, val with
  | [], [] => Ok m
  | i :: idxs', r :: val' =>
      if decide (i < length m) then setitem_rows (<[i:=r]> m) idxs' val'
      else Raise IndexError
  | _, _ => Raise ValueError
  end.

(** The two statements in the body of [if random.random() > .5]. *)
Definition scramble_matrix (m : list (list A)) (rand_idx1 rand_idx2 : nat)
  : result (list (list A)) :=
  val ← getitem_rows m [rand_idx2; rand_idx1];
  setitem_rows m [rand_idx1; rand_idx2] val.

(** The outcome of the draws of iteration [j]: [None] when
    [random.random() > .5] is false, [Some (rand_idx1, rand_idx2)] when it
    holds and the two [random.randint] calls returned these indices. *)
Definition draws : Type := nat -> option (nat * nat).

Definition scramble_step (d : draws) (qubo_matrices : list (list (list A)))
    (j : nat) : result (list (list (list A))) :=
  match d j with
  | None => Ok qubo_matrices
  | Some (rand_idx1, rand_idx2) =>
      m ← getitem qubo_matrices j;
      m' ← scramble_matrix m rand_idx1 rand_idx2;
      Ok (<[j:=m']> qubo_matrices)
  end.

(** [for j in range(n_problems): ...] *)
Definition scramble (n_problems : nat) (d : draws)
    (qubo_matrices : list (list (list A))) : result (list (list (list A))) :=
  for_in (scramble_step d) (range n_problems) qubo_matrices.

(** The transposition of two indices. *)
Definition transp (i1 i2 r : nat) : nat :=
  if decide (r = i1) then i2 else if decide (r = i2) then i1 else r.

(** Exchange of two rows: row [r] of the result is row [transp i1 i2 r]. *)
Definition swap_rows (m : list (list A)) (i1 i2 : nat) : list (list A) :=
  imap (fun r row => default row (m !! transp i1 i2 r)) m.

(** Exchange of two columns, inside every row. *)
Definition swap_cols (m : list (list A)) (i1 i2 : nat) : list (list A) :=
  (fun row => imap (fun c x => default x (row !! transp i1 i2 c)) row) <$> m.

(** The matrix at place [j] of the batch once the loop has passed it. *)
Definition scrambled (d : draws) (j : nat) (m : list (list A))
  : list (list A) :=
  match d j with
  | Some (i1, i2) => swap_rows m i1 i2
  | None => m
  end.

(** What the specification describes: rows, then columns, are exchanged,
    that is [P^T M P] for the transposition [P]. *)
Definition spec_symmetric_swap (m : list (list A)) (i1 i2 : nat)
  : list (list A) :=
  swap_cols (swap_rows m i1 i2) i1 i2.

End Scrambler.

(** ** Floating-point numbers

    The pipeline only needs a handful of operations on array elements.  They
    are kept abstract, so that nothing proved about the layout of the data
    depends on rounding, on [nan] or on division by zero. *)

Class Float (R : Type) : Type := {
  f_zero : R;
  f_one : R;
  f_two : R;
  f_add : R -> R -> R;
  f_sub : R -> R -> R;
  f_div : R -> R -> R;
  f_abs : R -> R;
  f_max : R -> R -> R;
  (** [np.mean] and [np.std] of the items of an array *)
  np_mean : list R -> R;
  np_std : list R -> R;
  (** conversion on a store into an array of [dtype=np.float32] *)
  f32 : R -> R
}.

(** ** Generation of the data tensor ([Classification._gen_data]) *)

(** [cfg["model"]["no_norm"]], [cfg["model"]["norm_data"]] and the fields the
    constructor copies from [cfg["problems"]]. *)
Record config : Set := {
  no_norm : bool;
  norm_data : bool;
  qubo_size : nat;
  scramble_qubos : bool
}.

(** An entry of [PROBLEM_REGISTRY], with its arguments applied.  Both
    members are external to the pipeline: [gen_problems n] is what
    [cls.gen_problems(cfg, n, **args)] returned on this run, and
    [gen_qubo_matrix p] is [cls(cfg, **p).gen_qubo_matrix()]. *)
Record problem_class (P R : Type) : Type := {
  gen_problems : nat -> list P;
  gen_qubo_matrix : P -> list (list R)
}.
Arguments gen_problems {P R} _ _.
Arguments gen_qubo_matrix {P R} _ _.

Section GenData.
Context {P R : Type} `{Float R}.

(** [_prep_problems]: the configured names are looked up in order; an
    unknown name is a [KeyError].  The registry maps a name to its class
    with the arguments [cfg['problems'][name]] applied: a name that lacks
    its class in [PROBLEM_REGISTRY] or its arguments under
    [cfg['problems']] is not in it, and either lookup of line 33 raises
    [KeyError]. *)
Definition _prep_problems (registry : gmap string (problem_class P R))
    (names : list string) : result (list (problem_class P R)) :=
  mapM (fun name => match registry !! name with
                    | Some cls => Ok cls
                    | None => Raise KeyError
                    end) names.

Definition gen_qubo_matrices (cls : problem_class P R) (n_problems : nat)
  : list P * list (list (list R)) :=
  let problems := gen_problems cls n_problems in
  (problems, gen_qubo_matrix cls <$> problems).

(** The items of a stack of matrices, in order ([a.flat]). *)
Definition flat3 (a : list (list (list R))) : list R := concat (concat a).

(** An operation applied to every item of a stack of matrices. *)
Definition map3 (f : R -> R) (a : list (list (list R)))
  : list (list (list R)) :=
  map (map (map f)) a.

(** [np.max]: raises [ValueError] on an array without items. *)
Definition np_max (xs : list R) : result R :=
  match xs with
  | [] => Raise ValueError
  | x :: xs' => Ok (foldl f_max x xs')
  end.

(** Lines 73-80, on a stack of floating-point matrices: the items have the
    type [R] of the [Float] class.  (On a stack of integer dtype the
    in-place division of line 75 is refused with a [TypeError]; such a
    stack has no counterpart in [R].) *)
Definition normalize (cfg : config) (qubo_matrices : list (list (list R)))
  : result (list (list (list R))) :=
  if negb (no_norm cfg) then
    if norm_data cfg then
      m ← np_max (f_abs <$> flat3 qubo_matrices);
      let qubo_matrices := map3 (fun x => f_div x m) qubo_matrices in
      Ok (map3 (fun x => f_div (f_add x f_one) f_two) qubo_matrices)
    else
      let mean := np_mean (flat3 qubo_matrices) in
      let std := np_std (flat3 qubo_matrices) in
      Ok (map3 (fun x => f_div (f_sub x mean) std) qubo_matrices)
  else Ok qubo_matrices.

(** Lines 58-80 for one class: generation, optional scrambling,
    normalization. *)
Definition prepare_batch (cfg : config) (n_problems : nat) (d : draws)
    (cls : problem_class P R) : result (list (list (list R))) :=
  let '(problems, qubo_matrices) := gen_qubo_matrices cls n_problems in
  qubo_matrices ←
    (if scramble_qubos cfg then scramble n_problems d qubo_matrices
     else Ok qubo_matrices);
  normalize cfg qubo_matrices.

Definition zeros2 (q : nat) : list (list R) := replicate q (replicate q f_zero).

Definition is_square (q : nat) (m : list (list R)) : bool :=
  bool_decide (length m = q) && forallb (fun row => bool_decide (length row = q)) m.

(** [data[start:stop, :, :] = vals] on a tensor of [q]-by-[q] matrices.
    The value must have the shape of the slice; an empty list of matrices
    becomes an array of shape [(0,)], which fits only when [q = 0].  (The
    registry's matrices are [q]-by-[q]; the broadcasting of axes of length
    one is not modelled, such a value is rejected.)  Every item is
    converted to [float32]. *)
Definition setitem_slice (q : nat) (data : list (list (list R)))
    (start stop : nat) (vals : list (list (list R)))
  : result (list (list (list R))) :=
  let len := length data in
  if bool_decide (length vals = Nat.min stop len - Nat.min start len)
     && forallb (is_square q) vals
     && (bool_decide (vals <> []) || bool_decide (q = 0))
  then Ok (take start data ++ map3 f32 vals ++ drop stop data)
  else Raise ValueError.

(** [labels[start:stop] = i] *)
Definition fill_slice (labels : list Z) (start stop : nat) (i : Z) : list Z :=
  imap (fun k y => if decide (start <= k < stop) then i else y) labels.

(** The state of the loop: [all_problems], [data], [labels]. *)
Definition gen_state : Type :=
  list (list P) * list (list (list R)) * list Z.

(** The body of [for i, (cls, args) in enumerate(self.problems)]. *)
Definition gen_data_step (cfg : config) (n_problems : nat)
    (d : nat -> draws) (st : gen_state) (icls : nat * problem_class P R)
  : result gen_state :=
  let '(all_problems, data, labels) := st in
  let '(i, cls) := icls in
  let idx_start := i * n_problems in
  let idx_end := (i + 1) * n_problems in
  let all_problems := all_problems ++ [gen_problems cls n_problems] in
  qubo_matrices ← prepare_batch cfg n_problems (d i) cls;
  data ←
    (if decide (length qubo_matrices < n_problems) then
       setitem_slice (qubo_size cfg) data
         idx_start (idx_start + length qubo_matrices) qubo_matrices
     else
       setitem_slice (qubo_size cfg) data idx_start idx_end qubo_matrices);
  let labels := fill_slice labels idx_start idx_end (Z.of_nat i) in
  Ok (all_problems, data, labels).

(** [enumerate(xs)], counting from [k]. *)
Definition enumerate_from {A : Type} (k : nat) (xs : list A) : list (nat * A) :=
  imap (fun i x => (k + i, x)) xs.

Definition _gen_data (cfg : config) (problems : list (problem_class P R))
    (d : nat -> draws) (n_problems : nat) : result gen_state :=
  let data := replicate (length problems * n_problems) (zeros2 (qubo_size cfg)) in
  let labels := replicate (length problems * n_problems) 0%Z in
  for_in (gen_data_step cfg n_problems d) (enumerate_from 0 problems)
    ([], data, labels).

End GenData.

(** ** Problem parameters ([ReverseRegression.flatten_problem_parameters]) *)

(** An undirected [networkx] graph on integer nodes, without edge weights:
    its nodes in insertion order and its edge view [G.edges]. *)
Record graph : Set := {
  nodes : list Z;
  edges : list (Z * Z)
}.

(** The order of Python on pairs of integers. *)
Definition edge_le (e1 e2 : Z * Z) : Prop :=
  (e1.1 < e2.1)%Z \/ (e1.1 = e2.1 /\ (e1.2 <= e2.2)%Z).

#[global] Instance edge_le_dec (e1 e2 : Z * Z) : Decision (edge_le e1 e2).
Proof. unfold edge_le. apply _. Defined.

(** [sorted(G.edges)] *)
Definition sorted_edges (g : graph) : list (Z * Z) := merge_sort edge_le (edges g).

Definition has_edge (g : graph) (u v : Z) : bool :=
  bool_decide ((u, v) ∈ edges g \/ (v, u) ∈ edges g).

Section Flatten.
Context {F : Type}.
(** [float(n)] for an integer that is in the range of a double. *)
Variable float_of_int : Z -> F.

(** The values a field of a problem instance can hold.  [PyArray] is a
    [numpy.ndarray], given by its items along the first axis; the items of
    an array of numbers are [PyInt] or [PyFloat]. *)
Inductive pyval : Type :=
| PyBool (b : bool)
| PyInt (n : Z)
| PyFloat (x : F)
| PyList (items : list pyval)
| PyTuple (items : list pyval)
| PyArray (items : list pyval)
| PyGraph (g : graph).

(** A problem instance: a [dict], in insertion order. *)
Definition problem : Type := list (string * pyval).

(** [problem.values()] *)
Definition values (p : problem) : list pyval := snd <$> p.

(** [isinstance(v, list) or isinstance(v, tuple) or
    isinstance(v, np.ndarray)] *)
Definition is_list_tuple_ndarray (v : pyval) : bool :=
  match v with
  | PyList _ | PyTuple _ | PyArray _ => true
  | _ => false
  end.

(** [isinstance(v, tuple) or isinstance(v, list)] *)
Definition is_tuple_list (v : pyval) : bool :=
  match v with
  | PyList _ | PyTuple _ => true
  | _ => false
  end.

(** [v[0]] on a value that is a list, a tuple or an array (the only
    values the flattener subscripts). *)
Definition subscript0 (v : pyval) : result pyval :=
  match v with
  | PyList l | PyTuple l | PyArray l => getitem l 0
  | _ => Raise TypeError
  end.

(** The items [for item in v] runs through. *)
Definition py_iter (v : pyval) : result (list pyval) :=
  match v with
  | PyList l | PyTuple l | PyArray l => Ok l
  | PyGraph g => Ok (PyInt <$> nodes g)
  | PyBool _ | PyInt _ | PyFloat _ => Raise TypeError
  end.

(** The integers [float] converts: those that round to a finite double. *)
Definition in_double_range (n : Z) : bool :=
  (Z.abs n <? 2 ^ 1024 - 2 ^ 970)%Z.

(** [float(v)].  An array converts when it has exactly one item. *)
Fixpoint py_float (v : pyval) : result F :=
  match v with
  | PyBool b => Ok (float_of_int (if b then 1 else 0)%Z)
  | PyInt n =>
      if in_double_range n then Ok (float_of_int n) else Raise OverflowError
  | PyFloat x => Ok x
  | PyArray (x :: []) => py_float x
  | PyArray _ | PyList _ | PyTuple _ | PyGraph _ => Raise TypeError
  end.

(** [np.asarray(sorted(part.edges)).flat] *)
Definition edges_flat (g : graph) : list pyval :=
  concat ((fun e : Z * Z => [PyInt e.1; PyInt e.2]) <$> sorted_edges g).

(** [nx.to_numpy_matrix(part).flat]: the dense adjacency matrix, row by
    row. *)
Definition adjacency_flat (g : graph) : list pyval :=
  concat ((fun u =>
             (fun v => PyFloat (float_of_int (if has_edge g u v then 1 else 0)%Z))
               <$> nodes g) <$> nodes g).

(** [[item for sublist in part for item in sublist]] *)
Definition flatten2 (part : list pyval) : result (list pyval) :=
  sublists ← mapM py_iter part;
  Ok (concat sublists).

(** [[item for sublist in part for subsublist in sublist
      for item in subsublist]] *)
Definition flatten3 (part : list pyval) : result (list pyval) :=
  sublists ← mapM py_iter part;
  subsublists ← mapM (mapM py_iter) sublists;
  Ok (concat (concat subsublists)).

(** The contribution of one field: the body of [for part in problem]. *)
Definition flatten_part (gen_edges : bool) (part : pyval)
  : result (list pyval) :=
  match part with
  | PyGraph g => Ok (if gen_edges then edges_flat g else adjacency_flat g)
  | PyBool _ | PyInt _ | PyFloat _ => Ok [part]
  | PyList l | PyTuple l | PyArray l =>
      part0 ← getitem l 0;
      if is_list_tuple_ndarray part0 then
        part00 ← subscript0 part0;
        flat_list ←
          (if is_tuple_list part00 then flatten3 l else flatten2 l);
        flat_list ← mapM py_float flat_list;
        Ok (PyFloat <$> flat_list)
      else Ok l
  end.

(** One problem instance: the fields in order, concatenated. *)
Definition flatten_problem (gen_edges : bool) (p : problem)
  : result (list pyval) :=
  for_in (fun curr_problem_result part =>
            ext ← flatten_part gen_edges part;
            Ok (curr_problem_result ++ ext))
    (values p) [].

Definition flatten_problem_parameters (gen_edges : bool)
    (all_problems : list (list problem)) : result (list (list pyval) * nat) :=
  for_in (fun st problem_class_params =>
            for_in (fun '(result, output_size) p =>
                      curr_problem_result ← flatten_problem gen_edges p;
                      Ok (result ++ [curr_problem_result],
                          Nat.max output_size (length curr_problem_result)))
              problem_class_params st)
    all_problems ([], 0).

(** The items of a list, a tuple or an array. *)
Definition sequence_items (v : pyval) : option (list pyval) :=
  match v with
  | PyList l | PyTuple l | PyArray l => Some l
  | _ => None
  end.

(** [np.pad(prob, (0, k), 'constant', constant_values=(0, 0))] on a list
    of numbers. *)
Definition np_pad (prob : list pyval) (k : nat) : list pyval :=
  prob ++ replicate k (PyInt 0).

(** [.astype(float)] on a one-dimensional array built from a list: every
    item must be a number. *)
Definition astype_float (a : list pyval) : result (list F) :=
  mapM (fun v => match v with
                 | PyBool _ | PyInt _ | PyFloat _ => py_float v
                 | _ => Raise ValueError
                 end) a.

(** Lines 346-352 of [gen_data_lmdb]: every vector is padded on the right
    to [output_size]; a negative pad width is a [ValueError]. *)
Definition pad_problems (all_problems_flat : list (list pyval))
    (output_size : nat) : result (list (list F)) :=
  mapM (fun prob =>
          if decide (length prob <= output_size)
          then astype_float (np_pad prob (output_size - length prob))
          else Raise ValueError)
    all_problems_flat.

End Flatten.

Arguments PyBool {F} b.
Arguments PyInt {F} n.
Arguments PyFloat {F} x.
Arguments PyList {F} items.
Arguments PyTuple {F} items.
Arguments PyArray {F} items.
Arguments PyGraph {F} g.

(** ** Customizers for clause problems

    The target arrays have [dtype=np.float32] and start from zeros; every
    in-place addition adds an integer and stores the sum rounded to
    [float32], so the entries are integers at every step.  They are modelled
    in [Z], with the rounding written out. *)

(** The [float32] nearest to the integer [n], ties to the even significand.
    A significand of 24 bits holds every integer up to [2 ^ 24] in
    magnitude; a larger integer is rounded to a multiple of the spacing
    [2 ^ (e - 23)] of its binade [2 ^ e <= |n| < 2 ^ (e + 1)].  (The
    magnitudes that round to infinity, from [2 ^ 128 - 2 ^ 103] on, are out
    of reach for sums of increments of at most 4: from [2 ^ 27] on, such
    an increment is less than half the spacing and leaves the entry as it
    is.) *)
Definition round_f32 (n : Z) : Z :=
  if decide (Z.abs n <= 2 ^ 24)%Z then n
  else
    let ulp := (2 ^ (Z.log2 (Z.abs n) - 23))%Z in
    let lo := (n / ulp)%Z in
    let rest := (n mod ulp)%Z in
    if decide (2 * rest < ulp)%Z then (lo * ulp)%Z
    else if decide (ulp < 2 * rest)%Z then ((lo + 1) * ulp)%Z
    else if Z.even lo then (lo * ulp)%Z
    else ((lo + 1) * ulp)%Z.

(** [e + value] for an item [e] of a [float32] array and a Python integer
    [value], as the assignment stores it. *)
Definition f32_add (e value : Z) : Z := round_f32 (e + value).

(** A literal [(variable, polarity)]. *)
Definition literal : Set := Z * bool.

(** Normalisation of an integer index on an axis of length [len]: negative
    indices count from the end, anything else out of range raises. *)
Definition np_index (len : nat) (i : Z) : result nat :=
  if decide (0 <= i < Z.of_nat len)%Z then Ok (Z.to_nat i)
  else if decide (- Z.of_nat len <= i < 0)%Z then Ok (Z.to_nat (i + Z.of_nat len))
  else Raise IndexError.

(** [a[i] = f(a[i])], where [a[i]] is a view or an item. *)
Definition np_update {A : Type} (f : A -> result A) (a : list A) (i : Z)
  : result (list A) :=
  k ← np_index (length a) i;
  x ← getitem a k;
  y ← f x;
  Ok (<[k:=y]> a).

(** [new_p[0][x][y] += value] *)
Definition iadd_0xy (new_p : list (list (list Z))) (x y value : Z)
  : result (list (list (list Z))) :=
  np_update (fun m =>
    np_update (fun row =>
      np_update (fun e => Ok (f32_add e value)) row y) m x) new_p 0%Z.

(** [new_p[0][x][y][z] += value] *)
Definition iadd_0xyz (new_p : list (list (list (list Z)))) (x y z value : Z)
  : result (list (list (list (list Z)))) :=
  np_update (fun t =>
    np_update (fun m =>
      np_update (fun row =>
        np_update (fun e => Ok (f32_add e value)) row z) m y) t x) new_p 0%Z.

(** *** M2SAT ([gen_apply_m2sat_customization]) *)

Definition clause2 : Set := literal * literal.

(** Both statements under one [if] of lines 242-253. *)
Definition m2sat_branch (cond : bool) (delta : Z) (clause : clause2)
    (new_p : list (list (list Z))) : result (list (list (list Z))) :=
  if cond then
    new_p ← iadd_0xy new_p clause.1.1 clause.2.1 delta;
    iadd_0xy new_p clause.2.1 clause.1.1 delta
  else Ok new_p.

(** The body of [for clause in clauses]: the four [if] statements in
    sequence. *)
Definition m2sat_clause (new_p : list (list (list Z))) (clause : clause2)
  : result (list (list (list Z))) :=
  let c01 := clause.1.2 in
  let c11 := clause.2.2 in
  new_p ← m2sat_branch (c01 && c11) (-2) clause new_p;
  new_p ← m2sat_branch (negb c01 && negb c11) 1 clause new_p;
  new_p ← m2sat_branch (c01 && negb c11) (-1) clause new_p;
  m2sat_branch (negb c01 && c11) 2 clause new_p.

(** The array built for one problem: [np.zeros(shape=(1, q, q))], then the
    loop over the clauses. *)
Definition m2sat_new_p (q : nat) (clauses : list clause2)
  : result (list (list (list Z))) :=
  for_in m2sat_clause clauses [replicate q (replicate q 0%Z)].

(** [gen_apply_m2sat_customization], on the ["clauses"] fields of
    [all_problems[0]]: every field is replaced by [list(new_p.flat)]. *)
Definition gen_apply_m2sat_customization (q : nat)
    (all_clauses : list (list clause2)) : result (list (list Z)) :=
  mapM (fun clauses => new_p ← m2sat_new_p q clauses; Ok (concat (concat new_p)))
    all_clauses.

(** *** M3SAT ([gen_apply_m3sat_customization]) *)

Definition clause3 : Set := literal * literal * literal.

(** The eight [if] statements of lines 266-281, in sequence, on the
    variable [value] ([None] while it is unbound). *)
Definition m3sat_value (c01 c11 c21 : bool) (value : option Z) : option Z :=
  let value := if c01 && c11 && c21 then Some (-4)%Z else value in
  let value := if c01 && negb c11 && c21 then Some (-3)%Z else value in
  let value := if c01 && c11 && negb c21 then Some (-2)%Z else value in
  let value := if c01 && negb c11 && negb c21 then Some (-1)%Z else value in
  let value := if negb c01 && c11 && c21 then Some 1%Z else value in
  let value := if negb c01 && negb c11 && c21 then Some 2%Z else value in
  let value := if negb c01 && negb c11 && negb c21 then Some 3%Z else value in
  let value := if negb c01 && c11 && negb c21 then Some 4%Z else value in
  value.

(** Every item of a list together with the other items, by position. *)
Fixpoint selections {A : Type} (l : list A) : list (A * list A) :=
  match l with
  | [] => []
  | x :: xs => (x, xs) :: ((fun s : A * list A => (s.1, x :: s.2)) <$> selections xs)
  end.

(** [itertools.permutations(l, r)]: the arrangements of [r] items, in the
    order of their positions. *)
Fixpoint permutations {A : Type} (r : nat) (l : list A) : list (list A) :=
  match r with
  | 0 => [[]]
  | S r' =>
      concat ((fun s : A * list A => cons s.1 <$> permutations r' s.2)
                <$> selections l)
  end.

(** The body of [for permutation in itertools.permutations(clause, 3)]. *)
Definition m3sat_permutation (value : Z)
    (new_p : list (list (list (list Z)))) (permutation : list literal)
  : result (list (list (list (list Z)))) :=
  p0 ← getitem permutation 0;
  p1 ← getitem permutation 1;
  p2 ← getitem permutation 2;
  iadd_0xyz new_p p0.1 p1.1 p2.1 value.

(** The body of [for clause in clauses]; the state is [new_p] and the
    variable [value], which survives from one clause to the next. *)
Definition m3sat_clause (st : list (list (list (list Z))) * option Z)
    (clause : clause3) : result (list (list (list (list Z))) * option Z) :=
  let '(new_p, value) := st in
  let '(l0, l1, l2) := clause in
  let value := m3sat_value l0.2 l1.2 l2.2 value in
  match value with
  | None => Raise UnboundLocalError
  | Some v =>
      new_p ← for_in (m3sat_permutation v) (permutations 3 [l0; l1; l2]) new_p;
      Ok (new_p, value)
  end.

(** The array built for one problem: [np.zeros(shape=(1, q, q, q))], then
    the loop over the clauses. *)
Definition m3sat_new_p (q : nat) (clauses : list clause3)
  : result (list (list (list (list Z)))) :=
  st ← for_in m3sat_clause clauses
         ([replicate q (replicate q (replicate q 0%Z))], None);
  Ok st.1.

Definition gen_apply_m3sat_customization (q : nat)
    (all_clauses : list (list clause3)) : result (list (list Z)) :=
  mapM (fun clauses =>
          new_p ← m3sat_new_p q clauses; Ok (concat (concat (concat new_p))))
    all_clauses.

(** ** Exact arithmetic as an instance of [Float]

    Rational numbers with their exact operations.  [np.mean], [np.std] and
    the conversion to [float32] stay parameters.  Division by zero gives [0]
    here and [nan] or [inf] in NumPy: statements about quotients assume a
    divisor that is not zero. *)
Definition Q_float (mean std : list Q -> Q) (cast : Q -> Q) : Float Q := {|
  f_zero := 0%Q;
  f_one := 1%Q;
  f_two := 2%Q;
  f_add := Qplus;
  f_sub := Qminus;
  f_div := Qdiv;
  f_abs := Qabs;
  f_max := Qmax;
  np_mean := mean;
  np_std := std;
  f32 := cast
|}.

(** The inverse affine map of the max-abs rescaling. *)
Definition denormalize (m y : Q) : Q := ((2 * y - 1) * m)%Q.

(** ** Reading arrays, and the targets as the specification words them *)

(** [m[r][c]] and [t[x][y][z]] for indices in range ([0] elsewhere). *)
Definition entry2 (m : list (list Z)) (r c : nat) : Z :=
  default 0%Z (row ← m !! r; row !! c).

Definition entry3 (t : list (list (list Z))) (x y z : nat) : Z :=
  default 0%Z (m ← t !! x; row ← m !! y; row !! z).

(** The shape [(q, q)], and the shape [(q, q, q)]. *)
Definition square (q : nat) (m : list (list Z)) : Prop :=
  length m = q /\ Forall (fun row => length row = q) m.

Definition cube (q : nat) (t : list (list (list Z))) : Prop :=
  length t = q /\ Forall (square q) t.

(** One cell of a matrix, or of a stack of matrices, increased in place. *)
Definition add2 (v : Z) (r c : nat) (m : list (list Z)) : list (list Z) :=
  alter (alter (fun e => f32_add e v) c) r m.

Definition add3 (v : Z) (x y z : nat) (t : list (list (list Z)))
  : list (list (list Z)) :=
  alter (add2 v y z) x t.

(** The six additions of one 3-literal clause, in the order of
    [itertools.permutations]. *)
Definition m3sat_added (v : Z) (a b c : nat) (t : list (list (list Z)))
  : list (list (list Z)) :=
  add3 v c b a (add3 v c a b (add3 v b c a
    (add3 v b a c (add3 v a c b (add3 v a b c t))))).

(** The largest length among a batch of vectors. *)
Definition max_length {A : Type} (vs : list (list A)) : nat :=
  foldr (fun v acc => Nat.max (length v) acc) 0 vs.

Definition Zsum (l : list Z) : Z := foldr Z.add 0%Z l.

(** The contribution of a 2-literal clause, by its polarities. *)
Definition spec_m2sat_contribution (p0 p1 : bool) : Z :=
  match p0, p1 with
  | true, true => -2
  | false, false => 1
  | true, false => -1
  | false, true => 2
  end.

(** How often the cell [[r][c]] is one of [[var0][var1]], [[var1][var0]]. *)
Definition hits2 (var0 var1 : Z) (r c : nat) : Z :=
  (if decide (Z.of_nat r = var0 /\ Z.of_nat c = var1) then 1 else 0) +
  (if decide (Z.of_nat r = var1 /\ Z.of_nat c = var0) then 1 else 0).

(** The 2-literal target: every clause adds its contribution at
    [[var0][var1]] and at [[var1][var0]]. *)
Definition spec_m2sat_entry (clauses : list clause2) (r c : nat) : Z :=
  Zsum ((fun cl : clause2 =>
           spec_m2sat_contribution cl.1.2 cl.2.2 * hits2 cl.1.1 cl.2.1 r c)%Z
          <$> clauses).

(** The cell [[r][c]] after the clauses, from the item [e]: one in-place
    addition of the clause's contribution per hit, clause after clause. *)
Definition m2sat_cell (clauses : list clause2) (r c : nat) (e : Z) : Z :=
  foldl (fun e (cl : clause2) =>
           Nat.iter (Z.to_nat (hits2 cl.1.1 cl.2.1 r c))
             (fun e => f32_add e (spec_m2sat_contribution cl.1.2 cl.2.2)) e)
    e clauses.

(** The value of a 3-literal clause, by its polarity pattern. *)
Definition m3sat_table (p0 p1 p2 : bool) : Z :=
  match p0, p1, p2 with
  | true, true, true => -4
  | true, false, true => -3
  | true, true, false => -2
  | true, false, false => -1
  | false, true, true => 1
  | false, false, true => 2
  | false, false, false => 3
  | false, true, false => 4
  end.

(** How many of the six arrangements of [(v0, v1, v2)] are [(x, y, z)]. *)
Definition hits3 (v0 v1 v2 : Z) (x y z : nat) : Z :=
  Zsum ((fun p : Z * Z * Z =>
           if decide (Z.of_nat x = p.1.1 /\ Z.of_nat y = p.1.2 /\ Z.of_nat z = p.2)
           then 1 else 0)%Z
          <$> [(v0, v1, v2); (v0, v2, v1); (v1, v0, v2);
               (v1, v2, v0); (v2, v0, v1); (v2, v1, v0)]).

(** The 3-literal target. *)
Definition spec_m3sat_entry (clauses : list clause3) (x y z : nat) : Z :=
  Zsum ((fun cl : clause3 =>
           m3sat_table cl.1.1.2 cl.1.2.2 cl.2.2
           * hits3 cl.1.1.1 cl.1.2.1 cl.2.1 x y z)%Z
          <$> clauses).

(** The cell [[x][y][z]] after the clauses, from the item [e]: one in-place
    addition of the clause's value per hit, clause after clause. *)
Definition m3sat_cell (clauses : list clause3) (x y z : nat) (e : Z) : Z :=
  foldl (fun e (cl : clause3) =>
           Nat.iter (Z.to_nat (hits3 cl.1.1.1 cl.1.2.1 cl.2.1 x y z))
             (fun e => f32_add e (m3sat_table cl.1.1.2 cl.1.2.2 cl.2.2)) e)
    e clauses.

(** [(x, y, z)] is an arrangement of [(0, 1, 2)]. *)
Definition arrangement_of_012 (x y z : nat) : Prop :=
  (x = 0 /\ y = 1 /\ z = 2) \/ (x = 0 /\ y = 2 /\ z = 1) \/
  (x = 1 /\ y = 0 /\ z = 2) \/ (x = 1 /\ y = 2 /\ z = 0) \/
  (x = 2 /\ y = 0 /\ z = 1) \/ (x = 2 /\ y = 1 /\ z = 0).

#[global] Instance arrangement_of_012_dec (x y z : nat) :
  Decision (arrangement_of_012 x y z).
Proof. unfold arrangement_of_012. apply _. Defined.

Definition in_range2 (q : nat) (cl : clause2) : Prop :=
  (0 <= cl.1.1 < Z.of_nat q)%Z /\ (0 <= cl.2.1 < Z.of_nat q)%Z.

Definition in_range3 (q : nat) (cl : clause3) : Prop :=
  (0 <= cl.1.1.1 < Z.of_nat q)%Z /\ (0 <= cl.1.2.1 < Z.of_nat q)%Z /\
  (0 <= cl.2.1 < Z.of_nat q)%Z.

(** ** A small run

    Two classes, two problems requested per class, matrices of size one and
    no normalization; the first class generates a single problem. *)
Definition example_float : Float Q :=
  Q_float (fun _ => 0%Q) (fun _ => 1%Q) (fun x => x).

Definition example_cfg : config :=
  {| no_norm := true; norm_data := false; qubo_size := 1;
     scramble_qubos := false |}.

Definition example_class (count : nat) (x : Q) : problem_class nat Q :=
  {| gen_problems := fun n => seq 0 (Nat.min count n);
     gen_qubo_matrix := fun _ => [[x]] |}.

Definition example_registry : gmap string (problem_class nat Q) :=
  <["M2SAT"%string := example_class 1 5%Q]>
    (<["TSP"%string := example_class 2 7%Q]> ∅).

Definition example_names : list string := ["M2SAT"%string; "TSP"%string].

Definition example_problems : list (problem_class nat Q) :=
  [example_class 1 5%Q; example_class 2 7%Q].

Definition example_draws : nat -> draws := fun _ _ => None.

(** Two instances of one class, with vectors of different lengths. *)
Definition example_instances : list (list (problem (F := Q))) :=
  [[ [("edges"%string, PyList [PyInt 1; PyInt 2]); ("n"%string, PyInt 3)];
     [("edges"%string, PyTuple [PyInt 7])] ]].

(** ** Other steps of the pipeline *)

Section MoreSteps.
Context {P R : Type} `{Float R}.

(** [len_ = len(all_problems[0]); data = data[:len_];
    labels = labels[:len_]] (lines 299-301 and 337-339 of
    [ReverseRegression.gen_data_lmdb]). *)
Definition truncate_to_instances (all_problems : list (list P))
    (data : list (list (list R))) (labels : list Z)
  : result (list (list (list R)) * list Z) :=
  problems0 ← getitem all_problems 0;
  let len_ := length problems0 in
  Ok (take len_ data, take len_ labels).

(** The conditions under which a class is processed without an
    exception. *)
Definition class_ready (cfg : config) (n : nat) (d : draws)
    (cls : problem_class P R) : Prop :=
  0 < length (gen_problems cls n) <= n /\
  Forall (fun p => is_square (qubo_size cfg) (gen_qubo_matrix cls p) = true)
    (gen_problems cls n) /\
  (scramble_qubos cfg = true ->
   forall j i1 i2, j < n -> d j = Some (i1, i2) ->
     j < length (gen_problems cls n) /\ i1 < qubo_size cfg /\ i2 < qubo_size cfg).

(** [gen_data_chunks]: the loop over [range(self.chunks)].  Every chunk
    calls [_gen_data] with [self.n_problems // self.chunks] and writes one
    file; the result lists the files as (chunk, data, labels).  The
    classes as they answer during chunk [c] are [problems c], the draws of
    the chunk are [d c]. *)
Definition gen_data_chunks (cfg : config) (chunks n_problems : nat)
    (problems : nat -> list (problem_class P R)) (d : nat -> nat -> draws)
  : result (list (nat * list (list (list R)) * list Z)) :=
  for_in (fun files chunk =>
            let n_problems := n_problems / chunks in
            st ← _gen_data cfg (problems chunk) (d chunk) n_problems;
            Ok (files ++ [(chunk, st.1.2, st.2)]))
    (range chunks) [].

(** [np.triu_indices(size, 1)], zipped: the pairs [(i, j)] with
    [i < j < size], row by row. *)
Definition triu_indices (size : nat) : list (nat * nat) :=
  i ← range size; (fun j => (i, j)) <$> seq (i + 1) (size - (i + 1)).

(** [d[r0:r1, c0:c1]]; slices are clipped to the array. *)
Definition slice2 (d : list (list R)) (r0 r1 c0 c1 : nat) : list (list R) :=
  (fun row => take (c1 - c0) (drop c0 row)) <$> take (r1 - r0) (drop r0 d).

(** [quadrant[idx]] for a pair of index arrays given as a list of
    positions: the items at these positions; a position outside the array
    is an [IndexError]. *)
Definition getitem_positions (quadrant : list (list R)) (idx : list (nat * nat))
  : result (list R) :=
  mapM (fun ab : nat * nat => row ← getitem quadrant ab.1; getitem row ab.2) idx.

(** The body of [for k, d in enumerate(data)] in the QA branch (lines
    326-333). *)
Definition qa_simplify_matrix (size : nat) (d : list (list R)) : result (list R) :=
  for_in (fun tmp_data (ij : nat * nat) =>
            let quadrant :=
              slice2 d (ij.1 * size) ((ij.1 + 1) * size)
                       (ij.2 * size) ((ij.2 + 1) * size) in
            x ← getitem_positions quadrant (triu_indices size);
            Ok (tmp_data ++ x))
    (triu_indices size) [].

Definition qa_simplify (size : nat) (data : list (list (list R)))
  : result (list (list R)) :=
  mapM (qa_simplify_matrix size) data.

(** The positions of the matrix the QA branch keeps, in order. *)
Definition qa_positions (size : nat) : list (nat * nat) :=
  ij ← triu_indices size;
  (fun ab : nat * nat => (ij.1 * size + ab.1, ij.2 * size + ab.2))
    <$> triu_indices size.

(** Multiplication of array items, for [norm_multiply]. *)
Variable f_mul : R -> R -> R.

(** Lines 362-370: the normalization of the padded targets. *)
Definition normalize_targets (no_norm use_norm_multiply : bool)
    (norm_multiply : R) (all_problems_flat : list (list R))
  : result (list (list R)) :=
  if negb no_norm then
    if use_norm_multiply then
      m ← np_max (f_abs <$> concat all_problems_flat);
      let a := map (map (fun x => f_div x m)) all_problems_flat in
      Ok (map (map (fun x => f_mul x norm_multiply)) a)
    else
      m ← np_max (f_abs <$> concat all_problems_flat);
      let a := map (map (fun x => f_div x m)) all_problems_flat in
      Ok (map (map (fun x => f_div (f_add x f_one) f_two)) a)
  else Ok all_problems_flat.

End MoreSteps.

(** The clause list of a 2-literal problem as the Python value the flattener
    receives: a list of tuples of [(variable, polarity)] tuples. *)
Definition py_literal {F : Type} (l : literal) : pyval (F := F) :=
  PyTuple [PyInt l.1; PyBool l.2].

Definition py_clauses2 {F : Type} (clauses : list clause2) : pyval (F := F) :=
  PyList ((fun cl : clause2 => PyTuple [py_literal cl.1; py_literal cl.2])
            <$> clauses).

(** The numbers the flattener makes of a clause list. *)
Definition clause2_floats {F : Type} (float_of_int : Z -> F) (cl : clause2)
  : list F :=
  [float_of_int cl.1.1; float_of_int (if cl.1.2 then 1 else 0)%Z;
   float_of_int cl.2.1; float_of_int (if cl.2.2 then 1 else 0)%Z].

(** A clause with its variable indices taken modulo [q]. *)
Definition wrap_clause2 (q : nat) (cl : clause2) : clause2 :=
  (((cl.1.1 mod Z.of_nat q)%Z, cl.1.2), ((cl.2.1 mod Z.of_nat q)%Z, cl.2.2)).

(** The indices an axis of length [q] accepts. *)
Definition index_ok (q : nat) (i : Z) : Prop :=
  (- Z.of_nat q <= i < Z.of_nat q)%Z.

(** The flattened items [np.pad(...).astype(float)] accepts: booleans,
    floats, and integers in the range of a double. *)
Definition py_number {F : Type} (v : pyval (F := F)) : bool :=
  match v with
  | PyBool _ | PyFloat _ => true
  | PyInt n => in_double_range n
  | _ => false
  end.

(** The values [for item in v] cannot run through. *)
Definition py_scalar {F : Type} (v : pyval (F := F)) : bool :=
  match v with
  | PyBool _ | PyInt _ | PyFloat _ => true
  | _ => false
  end.
(** * Properties *)

(** ** The error monad *)

Lemma bind_Ok {A B : Type} (m : result A) (f : A -> result B) (b : B) :
  m ≫= f = Ok b -> exists a, m = Ok a /\ f a = Ok b.
Proof. destruct m as [a|e]; [eauto | discriminate]. Qed.

Lemma getitem_Ok {A : Type} (l : list A) (i : nat) (x : A) :
  getitem l i = Ok x <-> l !! i = Some x.
Proof.
  unfold getitem. destruct (l !! i); split; intros E; congruence.
Qed.

Lemma getitem_lookup {A : Type} (l : list A) (i : nat) (x : A) :
  l !! i = Some x -> getitem l i = Ok x.
Proof. apply getitem_Ok. Qed.

Lemma bind_ret_l {A B : Type} (a : A) (f : A -> result B) : Ok a ≫= f = f a.
Proof. reflexivity. Qed.

Lemma bind_raise_l {A B : Type} (e : exn) (f : A -> result B) :
  Raise e ≫= f = Raise e.
Proof. reflexivity. Qed.

Ltac inv_bind E :=
  let a := fresh "a" in
  let Ea := fresh "E" a in
  apply bind_Ok in E as (a & Ea & E).

(** ** The scrambler *)

Section ScramblerFacts.
Context {A : Type}.
Implicit Types (m : list (list A)) (qs : list (list (list A))).

Lemma transp_lt (n i1 i2 r : nat) :
  i1 < n -> i2 < n -> r < n -> transp i1 i2 r < n.
Proof. unfold transp. intros. repeat case_decide; lia. Qed.

Lemma swap_rows_lookup m i1 i2 r :
  i1 < length m -> i2 < length m ->
  swap_rows m i1 i2 !! r = m !! transp i1 i2 r.
Proof.
  intros H1 H2. unfold swap_rows. rewrite list_lookup_imap.
  destruct (m !! r) as [row|] eqn:E; simpl.
  - apply lookup_lt_Some in E as Hr.
    destruct (lookup_lt_is_Some_2 m (transp i1 i2 r)) as [row' E'].
    { by apply transp_lt. }
    by rewrite E'.
  - apply lookup_ge_None in E. symmetry. apply lookup_ge_None.
    unfold transp. repeat case_decide; lia.
Qed.

Lemma length_swap_rows m i1 i2 : length (swap_rows m i1 i2) = length m.
Proof. unfold swap_rows. by rewrite length_imap. Qed.

(** In range, the two statements exchange the two rows. *)
Lemma scramble_matrix_swap_rows m i1 i2 :
  i1 < length m -> i2 < length m ->
  scramble_matrix m i1 i2 = Ok (swap_rows m i1 i2).
Proof.
  intros H1 H2.
  destruct (lookup_lt_is_Some_2 m i1 H1) as [r1 E1].
  destruct (lookup_lt_is_Some_2 m i2 H2) as [r2 E2].
  unfold scramble_matrix, getitem_rows. cbn.
  rewrite (getitem_lookup _ _ _ E1), (getitem_lookup _ _ _ E2). cbn.
  rewrite decide_True by done.
  rewrite decide_True by (by rewrite length_insert).
  f_equal. apply list_eq. intros r.
  rewrite swap_rows_lookup by done. unfold transp.
  destruct (decide (r = i2)) as [->|N2].
  - rewrite list_lookup_insert_eq by (by rewrite length_insert).
    case_decide; congruence.
  - rewrite list_lookup_insert_ne by done.
    destruct (decide (r = i1)) as [->|N1].
    + rewrite list_lookup_insert_eq by done. congruence.
    + by rewrite list_lookup_insert_ne.
Qed.

Lemma scramble_loop (d : draws) (q n k : nat) qs :
  (forall j i1 i2, k <= j < k + n -> d j = Some (i1, i2) ->
     j < length qs /\ i1 < q /\ i2 < q) ->
  Forall (fun m => length m = q) qs ->
  exists qs',
    for_in (scramble_step d) (seq k n) qs = Ok qs' /\
    length qs' = length qs /\
    forall j, qs' !! j =
      if decide (k <= j < k + n) then scrambled d j <$> qs !! j else qs !! j.
Proof.
  revert k qs. induction n as [|n IH]; intros k qs Hd Hq.
  - exists qs. cbn. split_and!; [done..|].
    intros j. by rewrite decide_False by lia.
  - cbn [seq for_in].
    assert (exists qs1, scramble_step d qs k = Ok qs1 /\
              length qs1 = length qs /\
              Forall (fun m => length m = q) qs1 /\
              forall j, qs1 !! j =
                if decide (j = k) then scrambled d j <$> qs !! j else qs !! j)
      as (qs1 & E1 & L1 & Q1 & K1).
    { unfold scramble_step, scrambled.
      destruct (d k) as [[i1 i2]|] eqn:Ed.
      - destruct (Hd k i1 i2 ltac:(lia) Ed) as (Hk & H1 & H2).
        destruct (lookup_lt_is_Some_2 qs k Hk) as [m Em].
        assert (length m = q) as Lm.
        { by eapply (proj1 (Forall_lookup _ _) Hq). }
        rewrite (getitem_lookup _ _ _ Em), bind_ret_l.
        rewrite scramble_matrix_swap_rows by lia. rewrite bind_ret_l.
        eexists. split_and!; [done | by rewrite length_insert | |].
        + apply Forall_insert; [done|]. by rewrite length_swap_rows.
        + intros j. case_decide as Hj.
          * subst j. rewrite list_lookup_insert_eq by done.
            by rewrite Ed, Em.
          * by rewrite list_lookup_insert_ne.
      - exists qs. split_and!; [done..|].
        intros j. case_decide as Hj; [|done].
        subst j. rewrite Ed. by destruct (qs !! k). }
    rewrite E1, bind_ret_l.
    destruct (IH (S k) qs1) as (qs' & E' & L' & K'); [|done|].
    { intros j i1 i2 Hj Ej. rewrite L1. apply Hd; [lia | done]. }
    exists qs'. split_and!; [done | congruence |].
    intros j. rewrite K', K1.
    repeat case_decide; try lia; done.
Qed.

End ScramblerFacts.

Lemma scramble_length {A : Type} (d : draws) (n : nat)
    (qs qs' : list (list (list A))) :
  scramble n d qs = Ok qs' -> length qs' = length qs.
Proof.
  unfold scramble, range. generalize 0 as k. revert qs.
  induction n as [|n IH]; intros qs k E; cbn in E.
  - congruence.
  - inv_bind E. apply IH in E. rewrite E. clear E.
    unfold scramble_step in Ea. destruct (d k) as [[i1 i2]|]; [|congruence].
    inv_bind Ea. inv_bind Ea. injection Ea as <-. by rewrite length_insert.
Qed.

(** Claim C1, amended.  For every matrix of the batch the scrambler elects
    (the draws of its iteration [j] are [Some (i1, i2)], with both indices in
    [[0, qubo_size)]), the scrambler exchanges the rows [i1] and [i2] and
    nothing else: row [r] of the result is row [transp i1 i2 r] of the
    original, with its items in their original columns.  Matrices that are not
    elected stay as they are. *)
Theorem scramble_exchanges_rows {A : Type} (q n_problems : nat) (d : draws)
    (qubo_matrices : list (list (list A))) :
  n_problems <= length qubo_matrices ->
  Forall (fun m => length m = q) qubo_matrices ->
  (forall j i1 i2, j < n_problems -> d j = Some (i1, i2) -> i1 < q /\ i2 < q) ->
  exists out,
    scramble n_problems d qubo_matrices = Ok out /\
    length out = length qubo_matrices /\
    forall j m, j < n_problems -> qubo_matrices !! j = Some m ->
      match d j with
      | Some (i1, i2) =>
          exists m', out !! j = Some m' /\ length m' = length m /\
                     forall r, m' !! r = m !! transp i1 i2 r
      | None => out !! j = Some m
      end.
Proof.
  intros Hn Hq Hd.
  destruct (scramble_loop d q n_problems 0 qubo_matrices) as (out & E & L & K).
  { intros j i1 i2 Hj Ej. destruct (Hd j i1 i2 ltac:(lia) Ej). lia. }
  { done. }
  exists out. split_and!; [done..|].
  intros j m Hj Em. specialize (K j).
  rewrite decide_True, Em in K by lia. unfold scrambled in K. cbn in K.
  destruct (d j) as [[i1 i2]|] eqn:Ed; [|done].
  destruct (Hd j i1 i2 Hj Ed) as [H1 H2].
  assert (length m = q) as Lm by by eapply (proj1 (Forall_lookup _ _) Hq).
  eexists. split_and!; [done | apply length_swap_rows |].
  intros r. apply swap_rows_lookup; lia.
Qed.

Lemma scramble_exchanges_rows_witness :
  exists out,
    scramble 1 (fun _ => Some (0, 1)) [[[1; 2]; [3; 4]]%Z] = Ok out /\
    length out = 1 /\
    forall j m, j < 1 -> [[[1; 2]; [3; 4]]%Z] !! j = Some m ->
      exists m', out !! j = Some m' /\ length m' = length m /\
                 forall r, m' !! r = m !! transp 0 1 r.
Proof.
  apply (scramble_exchanges_rows 2 1 (fun _ => Some (0, 1)) [[[1; 2]; [3; 4]]%Z]).
  - simpl. lia.
  - repeat constructor.
  - intros j i1 i2 _ [= <- <-]. lia.
Defined.

(** Claim C1 as stated fails: on the matrix [[1, 2], [3, 4]] with the
    indices 0 and 1 the scrambler returns [[3, 4], [1, 2]], and the symmetric
    permutation is [[4, 3], [2, 1]]. *)
Lemma scramble_not_symmetric_swap :
  scramble 1 (fun _ => Some (0, 1)) [[[1; 2]; [3; 4]]%Z]
    = Ok [[[3; 4]; [1; 2]]%Z] /\
  spec_symmetric_swap [[1; 2]; [3; 4]]%Z 0 1 = [[4; 3]; [2; 1]]%Z /\
  scramble 1 (fun _ => Some (0, 1)) [[[1; 2]; [3; 4]]%Z]
    <> Ok [spec_symmetric_swap [[1; 2]; [3; 4]]%Z 0 1].
Proof. split_and!; [reflexivity | reflexivity | discriminate]. Qed.

(** ** Generation of the data tensor *)

Section GenDataFacts.
Context {P R : Type} `{Float R}.
Implicit Types (cls : problem_class P R) (data : list (list (list R)))
  (labels : list Z) (cfg : config).

Lemma length_map3 (f : R -> R) (a : list (list (list R))) :
  length (map3 f a) = length a.
Proof. unfold map3. by rewrite length_map. Qed.

Lemma normalize_length cfg (a a' : list (list (list R))) :
  normalize cfg a = Ok a' -> length a' = length a.
Proof.
  unfold normalize. intros E.
  destruct (no_norm cfg); cbn in E; [congruence|].
  destruct (norm_data cfg).
  - inv_bind E. injection E as <-. by rewrite !length_map3.
  - injection E as <-. by rewrite length_map3.
Qed.

(** The prepared batch has one matrix per generated problem. *)
Lemma prepare_batch_length cfg n (d : draws) cls (b : list (list (list R))) :
  prepare_batch cfg n d cls = Ok b ->
  length b = length (gen_problems cls n).
Proof.
  unfold prepare_batch, gen_qubo_matrices. intros E. inv_bind E.
  apply normalize_length in E. rewrite E.
  destruct (scramble_qubos cfg).
  - apply scramble_length in Ea. by rewrite Ea, length_fmap.
  - injection Ea as <-. by rewrite length_fmap.
Qed.

Lemma setitem_slice_Ok q data start stop vals data' :
  setitem_slice q data start stop vals = Ok data' ->
  start <= stop <= length data ->
  length vals = stop - start /\
  length data' = length data /\
  forall k, data' !! k =
    if decide (start <= k < stop) then map (map f32) <$> vals !! (k - start)
    else data !! k.
Proof.
  unfold setitem_slice. intros E Hs.
  destruct (bool_decide _ && _ && _) eqn:C; [|discriminate].
  injection E as <-.
  apply andb_prop in C as [C _]. apply andb_prop in C as [C _].
  apply bool_decide_eq_true in C.
  rewrite !Nat.min_l in C by lia.
  split_and!; [done | |].
  - rewrite !length_app, length_take, length_map3, length_drop. lia.
  - intros k. case_decide as Hk.
    + rewrite lookup_app_r by (rewrite length_take; lia).
      rewrite length_take, Nat.min_l by lia.
      rewrite lookup_app_l by (rewrite length_map3; lia).
      unfold map3. by rewrite list_lookup_fmap.
    + destruct (decide (k < start)) as [Hlt|Hge].
      * rewrite lookup_app_l by (rewrite length_take; lia).
        by rewrite lookup_take_lt.
      * rewrite lookup_app_r by (rewrite length_take; lia).
        rewrite length_take, Nat.min_l by lia.
        rewrite lookup_app_r by (rewrite length_map3; lia).
        rewrite length_map3, lookup_drop. f_equal. lia.
Qed.

Lemma fill_slice_lookup labels start stop (i : Z) k :
  fill_slice labels start stop i !! k =
    if decide (start <= k < stop) then (fun _ => i) <$> labels !! k
    else labels !! k.
Proof.
  unfold fill_slice. rewrite list_lookup_imap.
  destruct (labels !! k); cbn; by case_decide.
Qed.

Lemma length_fill_slice labels start stop (i : Z) :
  length (fill_slice labels start stop i) = length labels.
Proof. unfold fill_slice. by rewrite length_imap. Qed.

(** The effect of one iteration on the tensor and on the labels. *)
Lemma gen_data_step_Ok cfg n (d : nat -> draws) i cls
    (ap ap' : list (list P)) data data' labels labels' :
  gen_data_step cfg n d (ap, data, labels) (i, cls) = Ok (ap', data', labels') ->
  (i + 1) * n <= length data ->
  exists b,
    prepare_batch cfg n (d i) cls = Ok b /\
    length b <= n /\
    ap' = ap ++ [gen_problems cls n] /\
    length data' = length data /\
    length labels' = length labels /\
    (forall k, data' !! k =
       if decide (i * n <= k < i * n + length b)
       then map (map f32) <$> b !! (k - i * n)
       else data !! k) /\
    (forall k, labels' !! k =
       if decide (i * n <= k < (i + 1) * n)
       then (fun _ => Z.of_nat i) <$> labels !! k
       else labels !! k).
Proof.
  unfold gen_data_step. intros E Hlen.
  apply bind_Ok in E as (b & Eb & E).
  apply bind_Ok in E as (data1 & Ed & E).
  injection E as <- <- <-.
  exists b.
  assert (length b <= n /\ length data1 = length data /\
          forall k, data1 !! k =
            if decide (i * n <= k < i * n + length b)
            then map (map f32) <$> b !! (k - i * n)
            else data !! k) as (Hb & Hl & Hk).
  { case_decide as Hshort.
    - apply setitem_slice_Ok in Ed as (_ & Hl & Hk); [|lia].
      split_and!; [lia | done | done].
    - apply setitem_slice_Ok in Ed as (Hv & Hl & Hk); [|lia].
      assert (length b = n) as Hbn by lia.
      split_and!; [lia | done |].
      intros k. rewrite Hk. rewrite Hbn.
      repeat case_decide; try lia; done. }
  split_and!; try done.
  - apply length_fill_slice.
  - intros k. apply fill_slice_lookup.
Qed.

Lemma enumerate_from_cons {A : Type} (k : nat) (x : A) (xs : list A) :
  enumerate_from k (x :: xs) = (k, x) :: enumerate_from (S k) xs.
Proof.
  unfold enumerate_from. cbn. f_equal; [f_equal; lia|].
  apply imap_ext. intros i y _. cbn. f_equal. lia.
Qed.

(** The loop over the classes [k], [k + 1], ... : every class writes its
    own block and nothing else. *)
Lemma gen_data_loop cfg n (d : nat -> draws) (cs : list (problem_class P R)) :
  forall k (ap ap' : list (list P)) data data' labels labels',
  for_in (gen_data_step cfg n d) (enumerate_from k cs) (ap, data, labels)
    = Ok (ap', data', labels') ->
  (k + length cs) * n <= length data ->
  length labels = length data ->
  ap' = ap ++ ((fun cls => gen_problems cls n) <$> cs) /\
  length data' = length data /\
  length labels' = length labels /\
  (forall idx, idx < k * n \/ (k + length cs) * n <= idx ->
     data' !! idx = data !! idx /\ labels' !! idx = labels !! idx) /\
  (forall i cls, cs !! i = Some cls ->
     exists b,
       prepare_batch cfg n (d (k + i)) cls = Ok b /\
       length b <= n /\
       forall j, j < n ->
         data' !! ((k + i) * n + j) =
           (if decide (j < length b) then map (map f32) <$> b !! j
            else data !! ((k + i) * n + j)) /\
         labels' !! ((k + i) * n + j) = Some (Z.of_nat (k + i))).
Proof.
  induction cs as [|c cs IH]; intros k ap ap' data data' labels labels' E Hlen Hlab.
  - cbn in E. injection E as <- <- <-.
    split_and!; [by rewrite app_nil_r | done | done | done |].
    intros i cls Ei. by rewrite lookup_nil in Ei.
  - rewrite enumerate_from_cons in E. cbn [for_in] in E.
    apply bind_Ok in E as ([[ap1 data1] labels1] & E1 & E).
    cbn [length] in Hlen |- *.
    apply gen_data_step_Ok in E1 as (b & Eb & Hb & -> & Hl1 & Hll1 & Hd1 & Hlb1);
      [|nia].
    apply IH in E as (-> & Hl2 & Hll2 & Hframe & Hblocks);
      [|rewrite Hl1; nia|congruence].
    split_and!.
    + by rewrite <- app_assoc.
    + congruence.
    + congruence.
    + intros idx Hidx. destruct (Hframe idx) as [-> ->].
      { destruct Hidx; [left | right]; nia. }
      rewrite Hd1, Hlb1. rewrite !decide_False by (destruct Hidx; nia). done.
    + intros [|i] cls Ei; cbn in Ei.
      * injection Ei as ->. rewrite Nat.add_0_r.
        exists b. split_and!; [done..|].
        intros j Hj. destruct (Hframe (k * n + j)) as [-> ->]; [left; nia|].
        rewrite Hd1, Hlb1. split.
        -- case_decide; case_decide; try lia; [|done].
           f_equal. f_equal. lia.
        -- rewrite decide_True by nia.
           destruct (lookup_lt_is_Some_2 labels (k * n + j)) as [y ->]; [nia|].
           done.
      * destruct (Hblocks i cls Ei) as (b' & Eb' & Hb' & Hj').
        replace (k + S i) with (S k + i) by lia.
        exists b'. split_and!; [done..|].
        intros j Hj. destruct (Hj' j Hj) as [-> ->]. split; [|done].
        case_decide; [done|].
        rewrite Hd1. rewrite decide_False by nia. done.
Qed.

Lemma _gen_data_Ok cfg (problems : list (problem_class P R)) (d : nat -> draws)
    n data labels (all_problems : list (list P)) :
  _gen_data cfg problems d n = Ok (all_problems, data, labels) ->
  all_problems = (fun cls => gen_problems cls n) <$> problems /\
  length data = length problems * n /\
  length labels = length problems * n /\
  forall i cls, problems !! i = Some cls ->
    exists b,
      prepare_batch cfg n (d i) cls = Ok b /\
      length b = length (gen_problems cls n) /\
      length b <= n /\
      forall j, j < n ->
        data !! (i * n + j) =
          (if decide (j < length b) then map (map f32) <$> b !! j
           else Some (zeros2 (qubo_size cfg))) /\
        labels !! (i * n + j) = Some (Z.of_nat i).
Proof.
  unfold _gen_data. intros E.
  apply gen_data_loop in E as (-> & Hl & Hll & _ & Hblocks);
    [|rewrite length_replicate; lia|by rewrite !length_replicate].
  rewrite length_replicate in Hl. rewrite length_replicate in Hll.
  split_and!; [done..|].
  intros i cls Ei. destruct (Hblocks i cls Ei) as (b & Eb & Hb & Hj).
  cbn [Nat.add] in Eb, Hj.
  exists b. split_and!; [done | by eapply prepare_batch_length | done |].
  intros j Hj'. destruct (Hj j Hj') as [-> ->]. split; [|done].
  case_decide; [done|].
  apply lookup_replicate_2. apply lookup_lt_Some in Ei. cbn. nia.
Qed.

End GenDataFacts.

Lemma mapM_result_Ok {A B : Type} (f : A -> result B) (l : list A) (k : list B) :
  mapM f l = Ok k -> Forall2 (fun x y => f x = Ok y) l k.
Proof.
  revert k. induction l as [|x l IH]; intros k E; cbn in E.
  - injection E as <-. constructor.
  - inv_bind E. inv_bind E. injection E as <-. constructor; auto.
Qed.

(** Claim C5.  When a class generates fewer matrices than [n_problems], the
    matrices of its batch (as prepared by scrambling and normalization, and
    converted to [float32]) are at the start of the class's block of the data
    tensor, at the indices [i * n_problems + j] for [j] below the generated
    count, and every other matrix of the block is the zero matrix. *)
Theorem short_batch_fills_prefix_rest_zero {P R : Type} `{Float R}
    (cfg : config) (problems : list (problem_class P R)) (d : nat -> draws)
    (n_problems : nat) (all_problems : list (list P))
    (data : list (list (list R))) (labels : list Z) :
  _gen_data cfg problems d n_problems = Ok (all_problems, data, labels) ->
  forall i cls, problems !! i = Some cls ->
    length (gen_problems cls n_problems) < n_problems ->
    exists b,
      prepare_batch cfg n_problems (d i) cls = Ok b /\
      length b = length (gen_problems cls n_problems) /\
      (forall j m, b !! j = Some m ->
         data !! (i * n_problems + j) = Some (map (map f32) m)) /\
      (forall j, length (gen_problems cls n_problems) <= j < n_problems ->
         data !! (i * n_problems + j) = Some (zeros2 (qubo_size cfg))).
Proof.
  intros E i cls Ei Hshort.
  apply _gen_data_Ok in E as (_ & _ & _ & Hblocks).
  destruct (Hblocks i cls Ei) as (b & Eb & Hlb & Hb & Hj).
  exists b. split_and!; [done..| |].
  - intros j m Em. apply lookup_lt_Some in Em as Hjb.
    destruct (Hj j ltac:(lia)) as [-> _].
    by rewrite decide_True, Em by done.
  - intros j Hjn. destruct (Hj j ltac:(lia)) as [-> _].
    by rewrite decide_False by lia.
Qed.

Lemma short_batch_fills_prefix_rest_zero_witness :
  exists b,
    prepare_batch (H := example_float) example_cfg 2 (example_draws 0)
      (example_class 1 5%Q) = Ok b /\
    length b = 1 /\
    (forall j m, b !! j = Some m ->
       [[[5%Q]]; [[0%Q]]; [[7%Q]]; [[7%Q]]] !! (0 * 2 + j)
         = Some (map (map (@f32 Q example_float)) m)) /\
    (forall j, 1 <= j < 2 ->
       [[[5%Q]]; [[0%Q]]; [[7%Q]]; [[7%Q]]] !! (0 * 2 + j) = Some [[0%Q]]).
Proof.
  apply (short_batch_fills_prefix_rest_zero (H := example_float)
           example_cfg example_problems example_draws 2
           [[0]; [0; 1]] [[[5%Q]]; [[0%Q]]; [[7%Q]]; [[7%Q]]] [0; 0; 1; 1]%Z
           eq_refl 0 (example_class 1 5%Q) eq_refl).
  simpl. lia.
Defined.

(** Claim C8.  The label of every record is the zero-based position of its
    class in the configured list of problem names: the classes are prepared
    in the order of the names, and all [n_problems] records of the block of
    class [i] carry the label [i]. *)
Theorem labels_are_class_positions {P R : Type} `{Float R}
    (registry : gmap string (problem_class P R)) (names : list string)
    (cfg : config) (problems : list (problem_class P R)) (d : nat -> draws)
    (n_problems : nat) (all_problems : list (list P))
    (data : list (list (list R))) (labels : list Z) :
  _prep_problems registry names = Ok problems ->
  _gen_data cfg problems d n_problems = Ok (all_problems, data, labels) ->
  length labels = length names * n_problems /\
  forall i name, names !! i = Some name ->
    (exists cls, registry !! name = Some cls /\ problems !! i = Some cls) /\
    forall j, j < n_problems ->
      labels !! (i * n_problems + j) = Some (Z.of_nat i).
Proof.
  intros Ep E. apply mapM_result_Ok in Ep.
  apply _gen_data_Ok in E as (_ & _ & Hl & Hblocks).
  split; [by rewrite (Forall2_length _ _ _ Ep)|].
  intros i name Ei.
  destruct (Forall2_lookup_l _ _ _ _ _ Ep Ei) as (cls & Ec & Er).
  split.
  - exists cls. split; [|done]. destruct (registry !! name); congruence.
  - intros j Hj. destruct (Hblocks i cls Ec) as (b & _ & _ & _ & Hb).
    by destruct (Hb j Hj) as [_ ->].
Qed.

Lemma labels_are_class_positions_witness :
  length [0; 0; 1; 1]%Z = length example_names * 2 /\
  forall i name, example_names !! i = Some name ->
    (exists cls, example_registry !! name = Some cls /\
                 example_problems !! i = Some cls) /\
    forall j, j < 2 -> [0; 0; 1; 1]%Z !! (i * 2 + j) = Some (Z.of_nat i).
Proof.
  apply (labels_are_class_positions (H := example_float)
           example_registry example_names example_cfg example_problems
           example_draws 2 [[0]; [0; 1]]
           [[[5%Q]]; [[0%Q]]; [[7%Q]]; [[7%Q]]] [0; 0; 1; 1]%Z).
  - vm_compute. reflexivity.
  - reflexivity.
Defined.

(** Claim C9.  The labels of a class are assigned over its whole block
    [[i * n_problems, (i + 1) * n_problems)], whatever the number of matrices
    the class generated: a record of the block beyond the generated count
    carries the label [i] and its input matrix is all zeros. *)
Theorem labels_cover_block_of_short_batch {P R : Type} `{Float R}
    (cfg : config) (problems : list (problem_class P R)) (d : nat -> draws)
    (n_problems : nat) (all_problems : list (list P))
    (data : list (list (list R))) (labels : list Z) :
  _gen_data cfg problems d n_problems = Ok (all_problems, data, labels) ->
  forall i cls, problems !! i = Some cls ->
    forall j, j < n_problems ->
      labels !! (i * n_problems + j) = Some (Z.of_nat i) /\
      (length (gen_problems cls n_problems) <= j ->
       data !! (i * n_problems + j) = Some (zeros2 (qubo_size cfg))).
Proof.
  intros E i cls Ei j Hj.
  apply _gen_data_Ok in E as (_ & _ & _ & Hblocks).
  destruct (Hblocks i cls Ei) as (b & Eb & Hlb & Hb & Hjb).
  destruct (Hjb j Hj) as [Hd Hl]. split; [done|].
  intros Hshort. rewrite Hd. by rewrite decide_False by lia.
Qed.

Lemma labels_cover_block_of_short_batch_witness :
  [0; 0; 1; 1]%Z !! (0 * 2 + 1) = Some (Z.of_nat 0) /\
  [[[5%Q]]; [[0%Q]]; [[7%Q]]; [[7%Q]]] !! (0 * 2 + 1) = Some [[0%Q]].
Proof.
  destruct (labels_cover_block_of_short_batch (H := example_float)
              example_cfg example_problems example_draws 2
              [[0]; [0; 1]] [[[5%Q]]; [[0%Q]]; [[7%Q]]; [[7%Q]]] [0; 0; 1; 1]%Z
              eq_refl 0 (example_class 1 5%Q) eq_refl 1 ltac:(lia))
    as [Hlabel Hzero].
  split; [exact Hlabel | apply Hzero; simpl; lia].
Defined.

(** ** Additions in [float32] *)

(** Integers up to [2 ^ 24] in magnitude are stored as they are; the first
    one that is not is [2 ^ 24 + 1]. *)
Lemma round_f32_small (n : Z) : (Z.abs n <= 2 ^ 24)%Z -> round_f32 n = n.
Proof. intros Hn. unfold round_f32. by rewrite decide_True. Qed.

Lemma round_f32_examples :
  round_f32 16777216 = 16777216%Z /\ round_f32 16777217 = 16777216%Z /\
  round_f32 16777218 = 16777218%Z /\ round_f32 16777219 = 16777220%Z /\
  round_f32 (-16777217) = (-16777216)%Z /\
  round_f32 33554433 = 33554432%Z /\ round_f32 33554438 = 33554440%Z.
Proof. by vm_compute. Qed.

Lemma f32_add_small (e v : Z) :
  (Z.abs (e + v) <= 2 ^ 24)%Z -> f32_add e v = (e + v)%Z.
Proof. apply round_f32_small. Qed.

(** [k] additions of [v] in a row are exact as long as the magnitudes stay
    within [2 ^ 24]. *)
Lemma f32_iter_exact (k : nat) (v : Z) :
  forall e : Z,
    (Z.abs e + Z.of_nat k * Z.abs v <= 2 ^ 24)%Z ->
    Nat.iter k (fun e => f32_add e v) e = (e + Z.of_nat k * v)%Z.
Proof.
  induction k as [|k IH]; intros e Hb.
  - cbn. lia.
  - rewrite Nat.iter_succ_r, f32_add_small by lia.
    rewrite IH by lia. lia.
Qed.

Lemma indicator_bounds (P : Prop) `{Decision P} :
  (0 <= (if decide P then 1 else 0) <= 1)%Z.
Proof. case_decide; lia. Qed.

(** ** Arrays of integers updated in place *)

Lemma np_index_nonneg (len : nat) (i : Z) :
  (0 <= i < Z.of_nat len)%Z -> np_index len i = Ok (Z.to_nat i).
Proof. intros Hi. unfold np_index. by rewrite decide_True. Qed.

Lemma np_update_alter {A : Type} (g : A -> A) (f : A -> result A)
    (a : list A) (i : Z) :
  (0 <= i < Z.of_nat (length a))%Z ->
  (forall x, a !! Z.to_nat i = Some x -> f x = Ok (g x)) ->
  np_update f a i = Ok (alter g (Z.to_nat i) a).
Proof.
  intros Hi Hf. unfold np_update.
  rewrite np_index_nonneg, bind_ret_l by done.
  destruct (lookup_lt_is_Some_2 a (Z.to_nat i)) as [x Ex]; [lia|].
  rewrite (getitem_lookup _ _ _ Ex), bind_ret_l, (Hf x Ex), bind_ret_l.
  f_equal. apply list_eq. intros k.
  destruct (decide (k = Z.to_nat i)) as [->|Hk].
  - rewrite list_lookup_insert_eq by lia.
    by rewrite list_lookup_alter_eq, Ex.
  - by rewrite list_lookup_insert_ne, list_lookup_alter_ne.
Qed.

Lemma square_lookup (q : nat) (m : list (list Z)) (r : nat) (row : list Z) :
  square q m -> m !! r = Some row -> length row = q.
Proof. intros [_ Hm] Er. by eapply (proj1 (Forall_lookup _ _) Hm). Qed.

Lemma cube_lookup (q : nat) (t : list (list (list Z))) (x : nat) m :
  cube q t -> t !! x = Some m -> square q m.
Proof. intros [_ Ht] Ex. by eapply (proj1 (Forall_lookup _ _) Ht). Qed.

Lemma square_zeros (q : nat) : square q (replicate q (replicate q 0%Z)).
Proof.
  split; [by rewrite length_replicate|].
  apply Forall_replicate. by rewrite length_replicate.
Qed.

Lemma cube_zeros (q : nat) :
  cube q (replicate q (replicate q (replicate q 0%Z))).
Proof.
  split; [by rewrite length_replicate|].
  apply Forall_replicate, square_zeros.
Qed.

Lemma entry2_zeros (q r c : nat) : entry2 (replicate q (replicate q 0%Z)) r c = 0%Z.
Proof.
  unfold entry2. destruct (replicate q (replicate q 0%Z) !! r) as [row|] eqn:E; [|done].
  apply lookup_replicate in E as [-> _]. cbn.
  destruct (replicate q 0%Z !! c) as [e|] eqn:E'; [|done].
  by apply lookup_replicate in E' as [-> _].
Qed.

Lemma entry3_zeros (q x y z : nat) :
  entry3 (replicate q (replicate q (replicate q 0%Z))) x y z = 0%Z.
Proof.
  unfold entry3.
  destruct (replicate q (replicate q (replicate q 0%Z)) !! x) as [m|] eqn:E; [|done].
  apply lookup_replicate in E as [-> _]. cbn.
  apply (entry2_zeros q y z).
Qed.

Lemma square_add2 (q : nat) (v : Z) (r c : nat) m :
  square q m -> square q (add2 v r c m).
Proof.
  intros [Hl Hm]. unfold add2. split; [by rewrite length_alter|].
  apply Forall_alter; [done|]. intros row _ Hrow. by rewrite length_alter.
Qed.

Lemma cube_add3 (q : nat) (v : Z) (x y z : nat) t :
  cube q t -> cube q (add3 v x y z t).
Proof.
  intros [Hl Ht]. unfold add3. split; [by rewrite length_alter|].
  apply Forall_alter; [done|]. intros m _ Hm. by apply square_add2.
Qed.

Lemma entry2_add2 (q : nat) (v : Z) (r c r' c' : nat) m :
  square q m -> r < q -> c < q ->
  entry2 (add2 v r c m) r' c' =
    if decide (r' = r /\ c' = c) then f32_add (entry2 m r' c') v
    else entry2 m r' c'.
Proof.
  intros Hm Hr Hc. unfold entry2, add2.
  destruct (decide (r' = r)) as [->|Nr].
  - rewrite list_lookup_alter_eq.
    destruct (lookup_lt_is_Some_2 m r) as [row Er]; [by destruct Hm as [-> _]|].
    rewrite Er. cbn.
    pose proof (square_lookup _ _ _ _ Hm Er) as Lrow.
    destruct (decide (c' = c)) as [->|Nc].
    + rewrite list_lookup_alter_eq.
      destruct (lookup_lt_is_Some_2 row c) as [e ->]; [lia|]. cbn.
      by rewrite decide_True.
    + rewrite list_lookup_alter_ne by done.
      by rewrite decide_False by tauto.
  - rewrite list_lookup_alter_ne by done.
    by rewrite decide_False by tauto.
Qed.

Lemma entry3_add3 (q : nat) (v : Z) (x y z x' y' z' : nat) t :
  cube q t -> x < q -> y < q -> z < q ->
  entry3 (add3 v x y z t) x' y' z' =
    if decide (x' = x /\ y' = y /\ z' = z) then f32_add (entry3 t x' y' z') v
    else entry3 t x' y' z'.
Proof.
  intros Ht Hx Hy Hz. unfold entry3, add3.
  destruct (decide (x' = x)) as [->|Nx].
  - rewrite list_lookup_alter_eq.
    destruct (lookup_lt_is_Some_2 t x) as [m Em]; [by destruct Ht as [-> _]|].
    rewrite Em. cbn.
    pose proof (cube_lookup _ _ _ _ Ht Em) as Hm.
    pose proof (entry2_add2 q v y z y' z' m Hm Hy Hz) as E.
    unfold entry2 in E. rewrite E.
    repeat case_decide; tauto || done.
  - rewrite list_lookup_alter_ne by done.
    by rewrite decide_False by tauto.
Qed.

(** [new_p[0][x][y] += value] on an array of shape [(1, q, q)]. *)
Lemma iadd_0xy_add2 (q : nat) (m : list (list Z)) (x y value : Z) :
  square q m -> (0 <= x < Z.of_nat q)%Z -> (0 <= y < Z.of_nat q)%Z ->
  iadd_0xy [m] x y value = Ok [add2 value (Z.to_nat x) (Z.to_nat y) m].
Proof.
  intros Hm Hx Hy. unfold iadd_0xy.
  rewrite (np_update_alter (add2 value (Z.to_nat x) (Z.to_nat y))); [done|cbn; lia|].
  intros m' [= <-].
  apply np_update_alter; [destruct Hm as [-> _]; lia|].
  intros row Er. apply np_update_alter; [|done].
  rewrite (square_lookup _ _ _ _ Hm Er). lia.
Qed.

(** [new_p[0][x][y][z] += value] on an array of shape [(1, q, q, q)]. *)
Lemma iadd_0xyz_add3 (q : nat) (t : list (list (list Z))) (x y z value : Z) :
  cube q t -> (0 <= x < Z.of_nat q)%Z -> (0 <= y < Z.of_nat q)%Z ->
  (0 <= z < Z.of_nat q)%Z ->
  iadd_0xyz [t] x y z value
    = Ok [add3 value (Z.to_nat x) (Z.to_nat y) (Z.to_nat z) t].
Proof.
  intros Ht Hx Hy Hz. unfold iadd_0xyz.
  rewrite (np_update_alter (add3 value (Z.to_nat x) (Z.to_nat y) (Z.to_nat z)));
    [done|cbn; lia|].
  intros t' [= <-].
  apply np_update_alter; [destruct Ht as [-> _]; lia|].
  intros m Em. pose proof (cube_lookup _ _ _ _ Ht Em) as Hm.
  apply np_update_alter; [destruct Hm as [-> _]; lia|].
  intros row Er. apply np_update_alter; [|done].
  rewrite (square_lookup _ _ _ _ Hm Er). lia.
Qed.
(** ** The M2SAT customizer *)

Lemma Zsum_cons (x : Z) (l : list Z) : Zsum (x :: l) = (x + Zsum l)%Z.
Proof. reflexivity. Qed.

Lemma hits2_to_nat (q : nat) (v0 v1 : Z) (r c : nat) :
  (0 <= v0 < Z.of_nat q)%Z -> (0 <= v1 < Z.of_nat q)%Z ->
  hits2 v0 v1 r c =
    ((if decide (r = Z.to_nat v0 /\ c = Z.to_nat v1) then 1 else 0) +
     (if decide (r = Z.to_nat v1 /\ c = Z.to_nat v0) then 1 else 0))%Z.
Proof. intros H0 H1. unfold hits2. repeat case_decide; lia. Qed.

Lemma hits2_bounds (v0 v1 : Z) (r c : nat) : (0 <= hits2 v0 v1 r c <= 2)%Z.
Proof.
  unfold hits2.
  pose proof (indicator_bounds (Z.of_nat r = v0 /\ Z.of_nat c = v1)).
  pose proof (indicator_bounds (Z.of_nat r = v1 /\ Z.of_nat c = v0)).
  lia.
Qed.

Lemma spec_m2sat_contribution_bounds (p0 p1 : bool) :
  (Z.abs (spec_m2sat_contribution p0 p1) <= 2)%Z.
Proof. destruct p0, p1; cbn; lia. Qed.

(** One clause adds its contribution at [[var0][var1]], then at
    [[var1][var0]]. *)
Lemma m2sat_clause_Ok (q : nat) (m : list (list Z)) (cl : clause2) :
  square q m -> in_range2 q cl ->
  m2sat_clause [m] cl =
    Ok [add2 (spec_m2sat_contribution cl.1.2 cl.2.2)
          (Z.to_nat cl.2.1) (Z.to_nat cl.1.1)
          (add2 (spec_m2sat_contribution cl.1.2 cl.2.2)
             (Z.to_nat cl.1.1) (Z.to_nat cl.2.1) m)].
Proof.
  destruct cl as [[v0 p0] [v1 p1]]. intros Hm [H0 H1]. cbn in H0, H1.
  unfold m2sat_clause, m2sat_branch.
  destruct p0, p1; cbn [fst snd andb negb spec_m2sat_contribution];
    rewrite ?bind_ret_l;
    rewrite (iadd_0xy_add2 q) by done; rewrite bind_ret_l;
    rewrite (iadd_0xy_add2 q) by (done || by apply square_add2);
    reflexivity.
Qed.

(** A cell receives one addition per hit. *)
Lemma m2sat_clause_entry (q : nat) (m : list (list Z)) (cl : clause2) (r c : nat) :
  square q m -> in_range2 q cl ->
  entry2 (add2 (spec_m2sat_contribution cl.1.2 cl.2.2)
            (Z.to_nat cl.2.1) (Z.to_nat cl.1.1)
            (add2 (spec_m2sat_contribution cl.1.2 cl.2.2)
               (Z.to_nat cl.1.1) (Z.to_nat cl.2.1) m)) r c
  = Nat.iter (Z.to_nat (hits2 cl.1.1 cl.2.1 r c))
      (fun e => f32_add e (spec_m2sat_contribution cl.1.2 cl.2.2))
      (entry2 m r c).
Proof.
  intros Hm [H0 H1].
  rewrite (entry2_add2 q) by (lia || by apply square_add2).
  rewrite (entry2_add2 q) by (lia || done).
  rewrite (hits2_to_nat q) by done.
  repeat case_decide; reflexivity.
Qed.

Lemma m2sat_cell_cons (cl : clause2) (clauses : list clause2) (r c : nat) (e : Z) :
  m2sat_cell (cl :: clauses) r c e
  = m2sat_cell clauses r c
      (Nat.iter (Z.to_nat (hits2 cl.1.1 cl.2.1 r c))
         (fun e => f32_add e (spec_m2sat_contribution cl.1.2 cl.2.2)) e).
Proof. reflexivity. Qed.

(** The loop over the clauses: it returns, and every cell holds the
    [float32] accumulation of its hits. *)
Lemma m2sat_loop (q : nat) (clauses : list clause2) :
  forall m, square q m -> Forall (in_range2 q) clauses ->
  exists m',
    for_in m2sat_clause clauses [m] = Ok [m'] /\ square q m' /\
    forall r c, entry2 m' r c = m2sat_cell clauses r c (entry2 m r c).
Proof.
  induction clauses as [|cl clauses IH]; intros m Hm Hcl.
  - exists m. by split_and!.
  - apply Forall_cons in Hcl as [Hc Hcl]. cbn [for_in].
    rewrite (m2sat_clause_Ok q) by done. rewrite bind_ret_l.
    edestruct IH as (m' & E & Hm' & He); [|done|].
    { apply square_add2, square_add2, Hm. }
    exists m'. split_and!; [done..|].
    intros r c. by rewrite He, (m2sat_clause_entry q), m2sat_cell_cons.
Qed.

(** While the magnitudes stay within [2 ^ 24] the accumulation is the exact
    sum. *)
Lemma m2sat_cell_exact (clauses : list clause2) (r c : nat) :
  forall e : Z,
    (Z.abs e + 4 * Z.of_nat (length clauses) <= 2 ^ 24)%Z ->
    m2sat_cell clauses r c e = (e + spec_m2sat_entry clauses r c)%Z.
Proof.
  induction clauses as [|cl clauses IH]; intros e Hb.
  - unfold spec_m2sat_entry. cbn. lia.
  - cbn [length] in Hb. rewrite m2sat_cell_cons.
    pose proof (hits2_bounds cl.1.1 cl.2.1 r c) as Hh.
    pose proof (spec_m2sat_contribution_bounds cl.1.2 cl.2.2) as Hv.
    rewrite f32_iter_exact by (rewrite Z2Nat.id by lia; nia).
    rewrite Z2Nat.id by lia. rewrite IH by nia.
    unfold spec_m2sat_entry. rewrite fmap_cons, Zsum_cons. lia.
Qed.

(** Past [2 ^ 24] an addition can be lost: a (False, False) clause on one
    variable leaves the cell at [2 ^ 24]. *)
Lemma m2sat_accumulation_saturates :
  m2sat_clause [[[16777216%Z]]] ((0, false), (0, false))%Z
  = Ok [[[16777216%Z]]].
Proof. by vm_compute. Qed.

(** Claim C4.  For every list of 2-literal clauses over the variables
    [0 .. qubo_size - 1], the M2SAT customizer returns a
    [qubo_size]-by-[qubo_size] matrix and replaces the field by the flattened
    matrix; every clause adds its contribution (-2 for (true, true), +1 for
    (false, false), -1 for (true, false), +2 for (false, true)) to the
    [float32] cell [[var0][var1]] and to the cell [[var1][var0]].  For up to
    [2 ^ 22] clauses these additions are exact, and the cell [[r][c]] is the
    sum, over the clauses, of the contribution counted once for
    [[var0][var1]] and once for [[var1][var0]].  The single clause
    ((0, True), (1, True)) on a 4x4 target gives -2 at [[0][1]] and [[1][0]]
    and 0 elsewhere. *)
Theorem m2sat_target_sums_contributions :
  (forall (q : nat) (clauses : list clause2),
     Forall (in_range2 q) clauses ->
     exists m,
       m2sat_new_p q clauses = Ok [m] /\
       gen_apply_m2sat_customization q [clauses] = Ok [concat m] /\
       square q m /\
       forall r c, entry2 m r c = m2sat_cell clauses r c 0) /\
  (forall (q : nat) (clauses : list clause2),
     Forall (in_range2 q) clauses ->
     (4 * Z.of_nat (length clauses) <= 2 ^ 24)%Z ->
     exists m,
       m2sat_new_p q clauses = Ok [m] /\
       gen_apply_m2sat_customization q [clauses] = Ok [concat m] /\
       square q m /\
       forall r c, entry2 m r c = spec_m2sat_entry clauses r c) /\
  (spec_m2sat_contribution true true = -2 /\
   spec_m2sat_contribution false false = 1 /\
   spec_m2sat_contribution true false = -1 /\
   spec_m2sat_contribution false true = 2)%Z /\
  m2sat_new_p 4 [((0, true), (1, true))%Z]
    = Ok [[[0; -2; 0; 0]; [-2; 0; 0; 0]; [0; 0; 0; 0]; [0; 0; 0; 0]]%Z].
Proof.
  assert (forall (q : nat) (clauses : list clause2),
     Forall (in_range2 q) clauses ->
     exists m,
       m2sat_new_p q clauses = Ok [m] /\
       gen_apply_m2sat_customization q [clauses] = Ok [concat m] /\
       square q m /\
       forall r c, entry2 m r c = m2sat_cell clauses r c 0) as Hgen.
  { intros q clauses Hcl.
    destruct (m2sat_loop q clauses _ (square_zeros q) Hcl) as (m & E & Hm & He).
    exists m. unfold gen_apply_m2sat_customization, m2sat_new_p.
    cbn [mapM]. rewrite E. split_and!; [done | | done |].
    - cbn. by rewrite app_nil_r.
    - intros r c. by rewrite He, entry2_zeros. }
  split; [exact Hgen|]. split; [|split; [by split_and!|by vm_compute]].
  intros q clauses Hcl Hb.
  destruct (Hgen q clauses Hcl) as (m & E & E' & Hm & He).
  exists m. split_and!; [done..|].
  intros r c. rewrite He, m2sat_cell_exact by lia. lia.
Qed.

Lemma m2sat_target_sums_contributions_witness :
  exists m,
    m2sat_new_p 3 [((0, true), (2, false)); ((2, false), (0, false))]%Z = Ok [m] /\
    gen_apply_m2sat_customization 3
      [[((0, true), (2, false)); ((2, false), (0, false))]%Z] = Ok [concat m] /\
    square 3 m /\
    forall r c, entry2 m r c =
      spec_m2sat_entry [((0, true), (2, false)); ((2, false), (0, false))]%Z r c.
Proof.
  apply (proj1 (proj2 m2sat_target_sums_contributions) 3).
  - repeat constructor; cbn; lia.
  - cbn. lia.
Defined.

(** Claim C10.  A 2-literal clause whose two literals share the variable [v]
    has its contribution added twice, in [float32], to the diagonal cell
    [[v][v]], and no other cell changes.  On a cell of magnitude at most
    [2 ^ 24 - 4] both additions are exact: the cell changes by twice the
    contribution, and a (True, True) clause adds -4 there. *)
Theorem m2sat_same_variable_adds_twice (q : nat) (v : Z) (p0 p1 : bool)
    (m : list (list Z)) :
  square q m -> (0 <= v < Z.of_nat q)%Z ->
  (Z.abs (entry2 m (Z.to_nat v) (Z.to_nat v)) <= 2 ^ 24 - 4)%Z ->
  exists m',
    m2sat_clause [m] ((v, p0), (v, p1)) = Ok [m'] /\
    entry2 m' (Z.to_nat v) (Z.to_nat v)
      = f32_add (f32_add (entry2 m (Z.to_nat v) (Z.to_nat v))
                   (spec_m2sat_contribution p0 p1))
          (spec_m2sat_contribution p0 p1) /\
    entry2 m' (Z.to_nat v) (Z.to_nat v)
      = (entry2 m (Z.to_nat v) (Z.to_nat v)
         + 2 * spec_m2sat_contribution p0 p1)%Z /\
    (p0 = true -> p1 = true ->
     entry2 m' (Z.to_nat v) (Z.to_nat v)
       = (entry2 m (Z.to_nat v) (Z.to_nat v) - 4)%Z) /\
    forall r c, ~ (r = Z.to_nat v /\ c = Z.to_nat v) ->
      entry2 m' r c = entry2 m r c.
Proof.
  intros Hm Hv Hb.
  assert (in_range2 q ((v, p0), (v, p1))) as Hr by (split; cbn; lia).
  eexists. split; [by apply (m2sat_clause_Ok q)|].
  cbn [fst snd].
  assert (forall r c,
    entry2 (add2 (spec_m2sat_contribution p0 p1) (Z.to_nat v) (Z.to_nat v)
              (add2 (spec_m2sat_contribution p0 p1) (Z.to_nat v) (Z.to_nat v) m))
      r c
    = if decide (r = Z.to_nat v /\ c = Z.to_nat v)
      then f32_add (f32_add (entry2 m r c) (spec_m2sat_contribution p0 p1))
             (spec_m2sat_contribution p0 p1)
      else entry2 m r c) as He.
  { intros r c.
    rewrite (entry2_add2 q) by (lia || by apply square_add2).
    rewrite (entry2_add2 q) by (lia || done).
    by case_decide. }
  assert (f32_add (f32_add (entry2 m (Z.to_nat v) (Z.to_nat v))
                     (spec_m2sat_contribution p0 p1))
            (spec_m2sat_contribution p0 p1)
          = (entry2 m (Z.to_nat v) (Z.to_nat v)
             + 2 * spec_m2sat_contribution p0 p1)%Z) as Hexact.
  { pose proof (spec_m2sat_contribution_bounds p0 p1) as Hc.
    rewrite (f32_add_small (entry2 m _ _)) by lia.
    rewrite f32_add_small by lia. lia. }
  split_and!.
  - by rewrite He, decide_True.
  - by rewrite He, decide_True, Hexact.
  - intros -> ->. rewrite He, decide_True, Hexact by done. cbn. lia.
  - intros r c Hrc. by rewrite He, decide_False.
Qed.

Lemma m2sat_same_variable_adds_twice_witness :
  exists m',
    m2sat_clause [[[0; 0]; [0; 7]]%Z] ((1, true), (1, true))%Z = Ok [m'] /\
    entry2 m' 1 1 = f32_add (f32_add (entry2 [[0; 0]; [0; 7]]%Z 1 1) (-2)) (-2) /\
    entry2 m' 1 1 = (entry2 [[0; 0]; [0; 7]]%Z 1 1 + 2 * -2)%Z /\
    (true = true -> true = true ->
     entry2 m' 1 1 = (entry2 [[0; 0]; [0; 7]]%Z 1 1 - 4)%Z) /\
    forall r c, ~ (r = 1 /\ c = 1) ->
      entry2 m' r c = entry2 [[0; 0]; [0; 7]]%Z r c.
Proof.
  apply (m2sat_same_variable_adds_twice 2 1%Z true true [[0; 0]; [0; 7]]%Z).
  - split; [reflexivity | repeat constructor].
  - lia.
  - vm_compute. discriminate.
Defined.

(** ** The M3SAT customizer *)

(** Whatever [value] held before, the eight [if] statements leave the entry
    of the table for the polarity pattern. *)
Lemma m3sat_value_table (p0 p1 p2 : bool) (value : option Z) :
  m3sat_value p0 p1 p2 value = Some (m3sat_table p0 p1 p2).
Proof. by destruct p0, p1, p2. Qed.

Lemma hits3_to_nat (q : nat) (v0 v1 v2 : Z) (x y z : nat) :
  (0 <= v0 < Z.of_nat q)%Z -> (0 <= v1 < Z.of_nat q)%Z ->
  (0 <= v2 < Z.of_nat q)%Z ->
  hits3 v0 v1 v2 x y z =
    Zsum ((fun p : nat * nat * nat =>
             if decide (x = p.1.1 /\ y = p.1.2 /\ z = p.2) then 1 else 0)%Z
            <$> [(Z.to_nat v0, Z.to_nat v1, Z.to_nat v2);
                 (Z.to_nat v0, Z.to_nat v2, Z.to_nat v1);
                 (Z.to_nat v1, Z.to_nat v0, Z.to_nat v2);
                 (Z.to_nat v1, Z.to_nat v2, Z.to_nat v0);
                 (Z.to_nat v2, Z.to_nat v0, Z.to_nat v1);
                 (Z.to_nat v2, Z.to_nat v1, Z.to_nat v0)]).
Proof.
  intros H0 H1 H2. unfold hits3, Zsum. cbn [fmap list_fmap foldr fst snd].
  repeat f_equal; repeat case_decide; lia.
Qed.

Lemma hits3_bounds (v0 v1 v2 : Z) (x y z : nat) :
  (0 <= hits3 v0 v1 v2 x y z <= 6)%Z.
Proof.
  unfold hits3, Zsum. cbn [fmap list_fmap foldr fst snd].
  pose proof (indicator_bounds
    (Z.of_nat x = v0 /\ Z.of_nat y = v1 /\ Z.of_nat z = v2)).
  pose proof (indicator_bounds
    (Z.of_nat x = v0 /\ Z.of_nat y = v2 /\ Z.of_nat z = v1)).
  pose proof (indicator_bounds
    (Z.of_nat x = v1 /\ Z.of_nat y = v0 /\ Z.of_nat z = v2)).
  pose proof (indicator_bounds
    (Z.of_nat x = v1 /\ Z.of_nat y = v2 /\ Z.of_nat z = v0)).
  pose proof (indicator_bounds
    (Z.of_nat x = v2 /\ Z.of_nat y = v0 /\ Z.of_nat z = v1)).
  pose proof (indicator_bounds
    (Z.of_nat x = v2 /\ Z.of_nat y = v1 /\ Z.of_nat z = v0)).
  lia.
Qed.

Lemma m3sat_table_bounds (p0 p1 p2 : bool) :
  (Z.abs (m3sat_table p0 p1 p2) <= 4)%Z.
Proof. destruct p0, p1, p2; cbn; lia. Qed.

Lemma m3sat_clause_Ok (q : nat) (t : list (list (list Z))) (cl : clause3)
    (value : option Z) :
  cube q t -> in_range3 q cl ->
  m3sat_clause ([t], value) cl =
    Ok ([m3sat_added (m3sat_table cl.1.1.2 cl.1.2.2 cl.2.2)
           (Z.to_nat cl.1.1.1) (Z.to_nat cl.1.2.1) (Z.to_nat cl.2.1) t],
        Some (m3sat_table cl.1.1.2 cl.1.2.2 cl.2.2)).
Proof.
  destruct cl as [[[v0 p0] [v1 p1]] [v2 p2]]. intros Ht (H0 & H1 & H2).
  cbn in H0, H1, H2. unfold m3sat_clause. cbn [fst snd].
  rewrite m3sat_value_table.
  cbn [permutations selections fmap list_fmap concat app fst snd for_in].
  unfold m3sat_permutation. cbn [getitem lookup list_lookup fst snd].
  repeat (rewrite !bind_ret_l;
          rewrite (iadd_0xyz_add3 q) by (done || eauto 10 using cube_add3)).
  reflexivity.
Qed.

Lemma m3sat_added_cube (q : nat) (v : Z) (a b c : nat) t :
  cube q t -> cube q (m3sat_added v a b c t).
Proof. intros Ht. unfold m3sat_added. eauto 10 using cube_add3. Qed.

(** One addition, as a number of additions: one on the cell, none
    elsewhere. *)
Lemma entry3_add3_iter (q : nat) (v : Z) (x y z x' y' z' : nat) t :
  cube q t -> x < q -> y < q -> z < q ->
  entry3 (add3 v x y z t) x' y' z' =
    Nat.iter (Z.to_nat (if decide (x' = x /\ y' = y /\ z' = z) then 1 else 0))
      (fun e => f32_add e v) (entry3 t x' y' z').
Proof.
  intros Ht Hx Hy Hz. rewrite (entry3_add3 q) by done. by case_decide.
Qed.

(** A cell receives one addition per arrangement that hits it. *)
Lemma m3sat_added_entry (q : nat) (t : list (list (list Z))) (cl : clause3)
    (x y z : nat) :
  cube q t -> in_range3 q cl ->
  entry3 (m3sat_added (m3sat_table cl.1.1.2 cl.1.2.2 cl.2.2)
            (Z.to_nat cl.1.1.1) (Z.to_nat cl.1.2.1) (Z.to_nat cl.2.1) t) x y z
  = Nat.iter (Z.to_nat (hits3 cl.1.1.1 cl.1.2.1 cl.2.1 x y z))
      (fun e => f32_add e (m3sat_table cl.1.1.2 cl.1.2.2 cl.2.2))
      (entry3 t x y z).
Proof.
  intros Ht (H0 & H1 & H2). rewrite (hits3_to_nat q) by done.
  unfold m3sat_added.
  repeat (rewrite (entry3_add3_iter q) by (lia || eauto 10 using cube_add3)).
  rewrite <- !Nat.iter_add. f_equal.
  unfold Zsum. cbn [fmap list_fmap foldr fst snd].
  set (a := Z.to_nat cl.1.1.1). set (b := Z.to_nat cl.1.2.1).
  set (c := Z.to_nat cl.2.1).
  pose proof (indicator_bounds (x = a /\ y = b /\ z = c)).
  pose proof (indicator_bounds (x = a /\ y = c /\ z = b)).
  pose proof (indicator_bounds (x = b /\ y = a /\ z = c)).
  pose proof (indicator_bounds (x = b /\ y = c /\ z = a)).
  pose proof (indicator_bounds (x = c /\ y = a /\ z = b)).
  pose proof (indicator_bounds (x = c /\ y = b /\ z = a)).
  lia.
Qed.

Lemma m3sat_cell_cons (cl : clause3) (clauses : list clause3) (x y z : nat)
    (e : Z) :
  m3sat_cell (cl :: clauses) x y z e
  = m3sat_cell clauses x y z
      (Nat.iter (Z.to_nat (hits3 cl.1.1.1 cl.1.2.1 cl.2.1 x y z))
         (fun e => f32_add e (m3sat_table cl.1.1.2 cl.1.2.2 cl.2.2)) e).
Proof. reflexivity. Qed.

(** The loop over the clauses: it returns, and every cell holds the
    [float32] accumulation of its hits. *)
Lemma m3sat_loop (q : nat) (clauses : list clause3) :
  forall t value, cube q t -> Forall (in_range3 q) clauses ->
  exists t' value',
    for_in m3sat_clause clauses ([t], value) = Ok ([t'], value') /\ cube q t' /\
    forall x y z,
      entry3 t' x y z = m3sat_cell clauses x y z (entry3 t x y z).
Proof.
  induction clauses as [|cl clauses IH]; intros t value Ht Hcl.
  - exists t, value. by split_and!.
  - apply Forall_cons in Hcl as [Hc Hcl]. cbn [for_in].
    rewrite (m3sat_clause_Ok q) by done. rewrite bind_ret_l.
    edestruct IH as (t' & value' & E & Ht' & He); [|done|].
    { by apply m3sat_added_cube. }
    exists t', value'. split_and!; [done..|].
    intros x y z. by rewrite He, (m3sat_added_entry q), m3sat_cell_cons.
Qed.

(** While the magnitudes stay within [2 ^ 24] the accumulation is the exact
    sum. *)
Lemma m3sat_cell_exact (clauses : list clause3) (x y z : nat) :
  forall e : Z,
    (Z.abs e + 24 * Z.of_nat (length clauses) <= 2 ^ 24)%Z ->
    m3sat_cell clauses x y z e = (e + spec_m3sat_entry clauses x y z)%Z.
Proof.
  induction clauses as [|cl clauses IH]; intros e Hb.
  - unfold spec_m3sat_entry. cbn. lia.
  - cbn [length] in Hb. rewrite m3sat_cell_cons.
    pose proof (hits3_bounds cl.1.1.1 cl.1.2.1 cl.2.1 x y z) as Hh.
    pose proof (m3sat_table_bounds cl.1.1.2 cl.1.2.2 cl.2.2) as Hv.
    rewrite f32_iter_exact by (rewrite Z2Nat.id by lia; nia).
    rewrite Z2Nat.id by lia. rewrite IH by nia.
    unfold spec_m3sat_entry. rewrite fmap_cons, Zsum_cons. lia.
Qed.

Lemma hits3_012 (x y z : nat) :
  hits3 0 1 2 x y z = if decide (arrangement_of_012 x y z) then 1%Z else 0%Z.
Proof.
  destruct (decide (arrangement_of_012 x y z)) as [Ha|Hn].
  - destruct Ha as [(-> & -> & ->)|[(-> & -> & ->)|[(-> & -> & ->)|
      [(-> & -> & ->)|[(-> & -> & ->)|(-> & -> & ->)]]]]]; reflexivity.
  - unfold hits3, Zsum. cbn [fmap list_fmap foldr fst snd].
    rewrite !decide_False; [done|..];
      intros (Hx & Hy & Hz); apply Hn; unfold arrangement_of_012; lia.
Qed.

(** Claim C3, amended.  For every 3-literal clause the M3SAT customizer
    computes a value that depends on the polarity pattern alone; the eight
    values are exactly the integers -4..4 without 0, one per pattern; the
    value is negative exactly when the first literal is positive, and it is
    the negation of the value of the complementary pattern exactly when the
    first and the third polarity differ.  For clauses over the variables
    [0 .. qubo_size - 1] the customizer returns a tensor of shape
    [qubo_size^3], flattened into the field, and the value is added, in
    [float32], at the six arrangements of the clause's variable indices;
    for up to [2 ^ 24 / 24] clauses these additions are exact and every cell
    is the sum of the values that hit it.  For the clause
    ((0, True), (1, True), (2, True)) the tensor holds -4 at the six
    arrangements of (0, 1, 2) and 0 elsewhere. *)
Theorem m3sat_target_accumulates_table_values :
  (forall p0 p1 p2 value,
     m3sat_value p0 p1 p2 value = Some (m3sat_table p0 p1 p2)) /\
  (forall v : Z,
     (exists p0 p1 p2, m3sat_table p0 p1 p2 = v) <-> (-4 <= v <= 4 /\ v <> 0)%Z) /\
  (forall p0 p1 p2 p0' p1' p2',
     m3sat_table p0 p1 p2 = m3sat_table p0' p1' p2' ->
     p0 = p0' /\ p1 = p1' /\ p2 = p2') /\
  (forall p0 p1 p2, (m3sat_table p0 p1 p2 < 0)%Z <-> p0 = true) /\
  (forall p0 p1 p2,
     m3sat_table (negb p0) (negb p1) (negb p2) = (- m3sat_table p0 p1 p2)%Z
     <-> p0 <> p2) /\
  (forall (q : nat) (clauses : list clause3),
     Forall (in_range3 q) clauses ->
     exists t,
       m3sat_new_p q clauses = Ok [t] /\
       gen_apply_m3sat_customization q [clauses] = Ok [concat (concat t)] /\
       cube q t /\
       forall x y z, entry3 t x y z = m3sat_cell clauses x y z 0) /\
  (forall (q : nat) (clauses : list clause3),
     Forall (in_range3 q) clauses ->
     (24 * Z.of_nat (length clauses) <= 2 ^ 24)%Z ->
     exists t,
       m3sat_new_p q clauses = Ok [t] /\
       gen_apply_m3sat_customization q [clauses] = Ok [concat (concat t)] /\
       cube q t /\
       forall x y z, entry3 t x y z = spec_m3sat_entry clauses x y z) /\
  (forall q : nat, 3 <= q ->
     exists t,
       m3sat_new_p q [((0, true), (1, true), (2, true))%Z] = Ok [t] /\
       forall x y z,
         entry3 t x y z = if decide (arrangement_of_012 x y z) then (-4)%Z else 0%Z).
Proof.
  assert (forall (q : nat) (clauses : list clause3),
     Forall (in_range3 q) clauses ->
     exists t,
       m3sat_new_p q clauses = Ok [t] /\
       gen_apply_m3sat_customization q [clauses] = Ok [concat (concat t)] /\
       cube q t /\
       forall x y z, entry3 t x y z = m3sat_cell clauses x y z 0) as Hacc.
  { intros q clauses Hcl.
    destruct (m3sat_loop q clauses _ None (cube_zeros q) Hcl)
      as (t & value & E & Ht & He).
    assert (m3sat_new_p q clauses = Ok [t]) as E'.
    { unfold m3sat_new_p. by rewrite E. }
    exists t. unfold gen_apply_m3sat_customization. cbn [mapM].
    rewrite E'. split_and!; [done | | done |].
    - cbn. by rewrite !app_nil_r.
    - intros x y z. by rewrite He, entry3_zeros. }
  assert (forall (q : nat) (clauses : list clause3),
     Forall (in_range3 q) clauses ->
     (24 * Z.of_nat (length clauses) <= 2 ^ 24)%Z ->
     exists t,
       m3sat_new_p q clauses = Ok [t] /\
       gen_apply_m3sat_customization q [clauses] = Ok [concat (concat t)] /\
       cube q t /\
       forall x y z, entry3 t x y z = spec_m3sat_entry clauses x y z) as Hgen.
  { intros q clauses Hcl Hb.
    destruct (Hacc q clauses Hcl) as (t & E & E' & Ht & He).
    exists t. split_and!; [done..|].
    intros x y z. rewrite He, m3sat_cell_exact by lia. lia. }
  split_and!.
  - apply m3sat_value_table.
  - intros v. split.
    + intros (p0 & p1 & p2 & <-). destruct p0, p1, p2; cbn; lia.
    + intros [Hv Hv0].
      assert (v = -4 \/ v = -3 \/ v = -2 \/ v = -1 \/
              v = 1 \/ v = 2 \/ v = 3 \/ v = 4)%Z as Hc by lia.
      destruct Hc as [->|[->|[->|[->|[->|[->|[->| ->]]]]]]].
      * by exists true, true, true.
      * by exists true, false, true.
      * by exists true, true, false.
      * by exists true, false, false.
      * by exists false, true, true.
      * by exists false, false, true.
      * by exists false, false, false.
      * by exists false, true, false.
  - intros p0 p1 p2 p0' p1' p2'.
    destruct p0, p1, p2, p0', p1', p2'; cbn; intros E; try discriminate E; done.
  - intros p0 p1 p2. destruct p0, p1, p2; cbn; split; intros E;
      try discriminate E; try done; lia.
  - intros p0 p1 p2. destruct p0, p1, p2; cbn; split; intros E;
      try discriminate E; try done; try lia; by destruct E.
  - apply Hacc.
  - apply Hgen.
  - intros q Hq.
    destruct (Hgen q [((0, true), (1, true), (2, true))%Z]) as (t & E & _ & _ & He).
    { repeat constructor; cbn; lia. }
    { cbn. lia. }
    exists t. split; [done|].
    intros x y z. rewrite He. unfold spec_m3sat_entry.
    rewrite fmap_cons, fmap_nil, Zsum_cons. cbn [fst snd m3sat_table Zsum foldr].
    rewrite hits3_012. case_decide; lia.
Qed.

Lemma m3sat_target_accumulates_table_values_witness :
  exists t,
    m3sat_new_p 3 [((0, true), (0, false), (2, false));
                   ((2, false), (1, true), (0, true))]%Z = Ok [t] /\
    gen_apply_m3sat_customization 3
      [[((0, true), (0, false), (2, false));
        ((2, false), (1, true), (0, true))]%Z] = Ok [concat (concat t)] /\
    cube 3 t /\
    forall x y z, entry3 t x y z =
      spec_m3sat_entry [((0, true), (0, false), (2, false));
                        ((2, false), (1, true), (0, true))]%Z x y z.
Proof.
  apply (proj1 (proj2 (proj2 (proj2 (proj2 (proj2 (proj2
           m3sat_target_accumulates_table_values)))))) 3).
  - repeat constructor; cbn; lia.
  - cbn. lia.
Defined.

(** Claim C3 as stated fails: the pattern (True, True, True) has the value
    -4 and its complement (False, False, False) has the value 3. *)
Lemma m3sat_values_not_sign_symmetric :
  m3sat_value true true true None = Some (-4)%Z /\
  m3sat_value false false false None = Some 3%Z /\
  ~ (forall p0 p1 p2 v w,
       m3sat_value p0 p1 p2 None = Some v ->
       m3sat_value (negb p0) (negb p1) (negb p2) None = Some w ->
       w = (- v)%Z).
Proof.
  split_and!; [reflexivity | reflexivity |].
  intros Hsym.
  specialize (Hsym true true true (-4)%Z 3%Z eq_refl eq_refl). discriminate Hsym.
Qed.

(** ** The flattener *)

Lemma for_in_app {S A : Type} (body : S -> A -> result S) (l1 l2 : list A) (s : S) :
  for_in body (l1 ++ l2) s = for_in body l1 s ≫= for_in body l2.
Proof.
  revert s. induction l1 as [|x l1 IH]; intros s; cbn [app for_in].
  - by rewrite bind_ret_l.
  - destruct (body s x) as [s'|e]; [|done]. rewrite !bind_ret_l. apply IH.
Qed.

Lemma mapM_result_cons {A B : Type} (f : A -> result B) (x : A) (l : list A) :
  mapM f (x :: l) = f x ≫= fun y => mapM f l ≫= fun k => Ok (y :: k).
Proof. reflexivity. Qed.


Lemma max_length_app {A : Type} (vs ws : list (list A)) :
  max_length (vs ++ ws) = Nat.max (max_length vs) (max_length ws).
Proof.
  unfold max_length. induction vs as [|v vs IH]; cbn [app foldr]; [done|].
  rewrite IH. lia.
Qed.

Lemma max_length_lookup {A : Type} (vs : list (list A)) (i : nat) (v : list A) :
  vs !! i = Some v -> length v <= max_length vs.
Proof.
  unfold max_length.
  revert i. induction vs as [|w vs IH]; intros [|i] E; cbn in *; try done.
  - injection E as ->. lia.
  - apply IH in E. lia.
Qed.

Section FlattenFacts.
Context {F : Type} (float_of_int : Z -> F).
Implicit Types (part v : pyval (F := F)) (p : problem (F := F)).

Lemma flatten_fields_acc gen_edges (parts : list pyval) (acc : list pyval) :
  for_in (fun curr_problem_result part =>
            ext ← flatten_part float_of_int gen_edges part;
            Ok (curr_problem_result ++ ext)) parts acc =
    for_in (fun curr_problem_result part =>
              ext ← flatten_part float_of_int gen_edges part;
              Ok (curr_problem_result ++ ext)) parts []
      ≫= fun r => Ok (acc ++ r).
Proof.
  revert acc. induction parts as [|part parts IH]; intros acc; cbn [for_in].
  - by rewrite bind_ret_l, app_nil_r.
  - destruct (flatten_part float_of_int gen_edges part) as [ext|e]; [|done].
    rewrite !bind_ret_l. rewrite (IH (acc ++ ext)), (IH ([] ++ ext)).
    destruct (for_in _ parts []) as [r|e]; [|done].
    rewrite !bind_ret_l. by rewrite app_assoc.
Qed.

(** The vector of an instance is the concatenation of the contributions
    of its fields, in order. *)
Lemma flatten_problem_cons gen_edges (k : string) part p :
  flatten_problem float_of_int gen_edges ((k, part) :: p) =
    ext ← flatten_part float_of_int gen_edges part;
    r ← flatten_problem float_of_int gen_edges p;
    Ok (ext ++ r).
Proof.
  unfold flatten_problem, values. cbn [fmap list_fmap snd for_in].
  destruct (flatten_part float_of_int gen_edges part) as [ext|e]; [|done].
  rewrite !bind_ret_l. apply flatten_fields_acc.
Qed.

Lemma flatten_problem_app gen_edges p1 p2 :
  flatten_problem float_of_int gen_edges (p1 ++ p2) =
    a ← flatten_problem float_of_int gen_edges p1;
    b ← flatten_problem float_of_int gen_edges p2;
    Ok (a ++ b).
Proof.
  induction p1 as [|[k part] p1 IH].
  - cbn [app].
    change (flatten_problem float_of_int gen_edges []) with (Ok (@nil (@pyval F))).
    rewrite bind_ret_l.
    destruct (flatten_problem float_of_int gen_edges p2); done.
  - rewrite <- app_comm_cons, !flatten_problem_cons, IH.
    destruct (flatten_part float_of_int gen_edges part) as [ext|e]; [|done].
    rewrite !bind_ret_l.
    destruct (flatten_problem float_of_int gen_edges p1) as [a|e]; [|done].
    rewrite !bind_ret_l.
    destruct (flatten_problem float_of_int gen_edges p2) as [b|e]; [|done].
    rewrite !bind_ret_l. by rewrite app_assoc.
Qed.

(** A field with one item that is not itself a sequence. *)
Lemma flatten_part_single gen_edges part (x : pyval) :
  sequence_items part = Some [x] -> is_list_tuple_ndarray x = false ->
  flatten_part float_of_int gen_edges part = Ok [x].
Proof.
  intros Ep Ex. destruct part; try discriminate Ep; injection Ep as ->;
    cbn; by rewrite Ex.
Qed.

(** A field without items. *)
Lemma flatten_part_empty gen_edges part :
  sequence_items part = Some [] ->
  flatten_part float_of_int gen_edges part = Raise IndexError.
Proof.
  intros Ep. by destruct part; try discriminate Ep; injection Ep as ->.
Qed.

(** The loop over the instances of one class, then over the classes. *)
Lemma flatten_class_loop gen_edges (ps : list problem) :
  forall (result result' : list (list pyval)) (size size' : nat),
  for_in (fun '(result, output_size) p =>
            curr_problem_result ← flatten_problem float_of_int gen_edges p;
            Ok (result ++ [curr_problem_result],
                Nat.max output_size (length curr_problem_result)))
    ps (result, size) = Ok (result', size') ->
  exists flats,
    result' = result ++ flats /\
    Forall2 (fun p raw => flatten_problem float_of_int gen_edges p = Ok raw)
      ps flats /\
    size' = Nat.max size (max_length flats).
Proof.
  induction ps as [|p ps IH]; intros result result' size size' E; cbn [for_in] in E.
  - injection E as <- <-. exists []. rewrite app_nil_r. cbn.
    split_and!; [done | constructor | lia].
  - apply bind_Ok in E as ([result1 size1] & E1 & E).
    apply bind_Ok in E1 as (raw & Eraw & E1). injection E1 as <- <-.
    apply IH in E as (flats & -> & Hf & ->).
    exists (raw :: flats). split_and!.
    + by rewrite <- app_assoc.
    + by constructor.
    + cbn. unfold max_length. lia.
Qed.

Lemma flatten_loop gen_edges (all_problems : list (list problem)) :
  forall (result result' : list (list pyval)) (size size' : nat),
  for_in (fun st problem_class_params =>
            for_in (fun '(result, output_size) p =>
                      curr_problem_result ← flatten_problem float_of_int gen_edges p;
                      Ok (result ++ [curr_problem_result],
                          Nat.max output_size (length curr_problem_result)))
              problem_class_params st)
    all_problems (result, size) = Ok (result', size') ->
  exists flats,
    result' = result ++ flats /\
    Forall2 (fun p raw => flatten_problem float_of_int gen_edges p = Ok raw)
      (concat all_problems) flats /\
    size' = Nat.max size (max_length flats).
Proof.
  induction all_problems as [|ps all_problems IH];
    intros result result' size size' E; cbn [for_in] in E.
  - injection E as <- <-. exists []. rewrite app_nil_r. cbn.
    split_and!; [done | constructor | lia].
  - apply bind_Ok in E as ([result1 size1] & E1 & E).
    apply flatten_class_loop in E1 as (flats1 & -> & Hf1 & ->).
    apply IH in E as (flats & -> & Hf & ->).
    exists (flats1 ++ flats). split_and!.
    + by rewrite <- app_assoc.
    + cbn [concat]. by apply Forall2_app.
    + rewrite max_length_app. lia.
Qed.

Lemma flatten_problem_parameters_Ok gen_edges all_problems
    (result : list (list pyval)) (output_size : nat) :
  flatten_problem_parameters float_of_int gen_edges all_problems
    = Ok (result, output_size) ->
  Forall2 (fun p raw => flatten_problem float_of_int gen_edges p = Ok raw)
    (concat all_problems) result /\
  output_size = max_length result.
Proof.
  unfold flatten_problem_parameters. intros E.
  apply flatten_loop in E as (flats & -> & Hf & ->). cbn [app].
split; [done | apply Nat.max_0_l].
Qed.

Lemma in_double_range_0 : in_double_range 0 = true.
Proof. vm_compute. reflexivity. Qed.


Lemma astype_float_length (a : list pyval) (xs : list F) :
  astype_float float_of_int a = Ok xs -> length xs = length a.
Proof.
  intros E. apply mapM_result_Ok in E. symmetry. by eapply Forall2_length.
Qed.

End FlattenFacts.



(** Claim C2, amended.  A field that is a sequence of one item which is not
    itself a list, a tuple or an array does not make the flattener raise: it
    contributes that one item, between the contributions of the fields
    before and after it.  A field that is an empty list, tuple or array
    makes the flattener raise [IndexError], because the dispatch reads
    [part[0]]. *)
Theorem flatten_single_item_ok_empty_raises {F : Type} (float_of_int : Z -> F)
    (gen_edges : bool) (pre post : problem (F := F)) (k : string)
    (part : pyval) (a b : list pyval) :
  flatten_problem float_of_int gen_edges pre = Ok a ->
  flatten_problem float_of_int gen_edges post = Ok b ->
  (forall x, sequence_items part = Some [x] ->
     is_list_tuple_ndarray x = false ->
     flatten_problem float_of_int gen_edges (pre ++ (k, part) :: post)
       = Ok (a ++ [x] ++ b) /\
     flatten_problem_parameters float_of_int gen_edges
       [[pre ++ (k, part) :: post]]
       = Ok ([a ++ [x] ++ b], length (a ++ [x] ++ b))) /\
  (sequence_items part = Some [] ->
     flatten_problem float_of_int gen_edges (pre ++ (k, part) :: post)
       = Raise IndexError /\
     flatten_problem_parameters float_of_int gen_edges
       [[pre ++ (k, part) :: post]]
       = Raise IndexError).
Proof.
  intros Ea Eb. split.
  - intros x Ep Ex.
    assert (flatten_problem float_of_int gen_edges (pre ++ (k, part) :: post)
            = Ok (a ++ [x] ++ b)) as E.
    { rewrite flatten_problem_app, Ea, bind_ret_l, flatten_problem_cons.
      rewrite (flatten_part_single _ _ _ x Ep Ex), bind_ret_l, Eb.
      reflexivity. }
    split; [done|].
    unfold flatten_problem_parameters. cbn [for_in]. by rewrite E.
  - intros Ep.
    assert (flatten_problem float_of_int gen_edges (pre ++ (k, part) :: post)
            = Raise IndexError) as E.
    { rewrite flatten_problem_app, Ea, bind_ret_l, flatten_problem_cons.
      by rewrite (flatten_part_empty _ _ _ Ep). }
    split; [done|].
    unfold flatten_problem_parameters. cbn [for_in]. by rewrite E.
Qed.

Lemma flatten_single_item_ok_empty_raises_witness :
  (forall x, sequence_items (PyTuple [PyInt 7]) = Some [x] ->
     is_list_tuple_ndarray x = false ->
     flatten_problem inject_Z false
       ([("n"%string, PyInt 3)]
        ++ ("edges"%string, PyTuple [PyInt 7]) :: [("m"%string, PyBool true)])
       = Ok ([PyInt 3] ++ [x] ++ [PyBool true]) /\
     flatten_problem_parameters inject_Z false
       [[[("n"%string, PyInt 3)]
         ++ ("edges"%string, PyTuple [PyInt 7]) :: [("m"%string, PyBool true)]]]
       = Ok ([[PyInt 3] ++ [x] ++ [PyBool true]],
             length ([PyInt 3] ++ [x] ++ [PyBool (F := Q) true]))) /\
  (sequence_items (PyTuple [PyInt (F := Q) 7]) = Some [] ->
     flatten_problem inject_Z false
       ([("n"%string, PyInt 3)]
        ++ ("edges"%string, PyTuple [PyInt 7]) :: [("m"%string, PyBool true)])
       = Raise IndexError /\
     flatten_problem_parameters inject_Z false
       [[[("n"%string, PyInt 3)]
         ++ ("edges"%string, PyTuple [PyInt 7]) :: [("m"%string, PyBool true)]]]
       = Raise IndexError).
Proof.
  apply (flatten_single_item_ok_empty_raises inject_Z false
           [("n"%string, PyInt 3)] [("m"%string, PyBool true)]
           "edges"%string (PyTuple [PyInt 7]) [PyInt 3] [PyBool true]);
    reflexivity.
Defined.

(** Claim C2 as stated fails: an instance whose only field is the empty
    list makes the flattener raise [IndexError]. *)
Lemma flatten_empty_field_raises :
  flatten_problem_parameters inject_Z false [[ [("clauses"%string, PyList [])] ]]
    = Raise IndexError.
Proof. reflexivity. Qed.

(** ** Normalization by the largest absolute value *)

Lemma concat_map_rows {R : Type} (f : R -> R) (m : list (list R)) :
  concat (map (map f) m) = f <$> concat m.
Proof.
  induction m as [|row m IH]; [done|].
  cbn [map concat]. by rewrite fmap_app, IH.
Qed.

Lemma flat3_map3 {R : Type} (f : R -> R) (a : list (list (list R))) :
  flat3 (map3 f a) = f <$> flat3 a.
Proof.
  unfold flat3, map3.
  induction a as [|m a IH]; [done|]. cbn [map concat].
  by rewrite !concat_app, fmap_app, IH, concat_map_rows.
Qed.

Lemma map3_map3 {R : Type} (f g : R -> R) (a : list (list (list R))) :
  map3 g (map3 f a) = map3 (fun x => g (f x)) a.
Proof.
  unfold map3. rewrite map_map. apply map_ext. intros m.
  rewrite map_map. apply map_ext. intros row. apply map_map.
Qed.

Lemma foldl_Qmax_ge (xs : list Q) (x : Q) :
  (x <= foldl Qmax x xs)%Q /\ Forall (fun y => (y <= foldl Qmax x xs)%Q) xs.
Proof.
  revert x. induction xs as [|y xs IH]; intros x; cbn [foldl].
  - split; [apply Qle_refl | constructor].
  - destruct (IH (Qmax x y)) as [Hm Hall]. split_and!.
    + eapply Qle_trans; [apply Q.le_max_l | exact Hm].
    + constructor; [|done]. eapply Qle_trans; [apply Q.le_max_r | exact Hm].
Qed.

Lemma foldl_Qmax_elem (xs : list Q) (x : Q) : foldl Qmax x xs ∈ x :: xs.
Proof.
  revert x. induction xs as [|y xs IH]; intros x; cbn [foldl].
  - apply elem_of_cons. by left.
  - specialize (IH (Qmax x y)). rewrite !elem_of_cons in IH |- *.
    destruct IH as [IH|IH]; [|by right; right].
    rewrite IH. unfold Qmax, GenericMinMax.gmax.
    destruct (x ?= y)%Q; [by left | by right; left | by left].
Qed.

Lemma denormalize_rescale (m x : Q) :
  ~ (m == 0)%Q -> (denormalize m ((x / m + 1) / 2) == x)%Q.
Proof. intros Hm. unfold denormalize. field. exact Hm. Qed.

(** Claim C7.  With the max-abs policy, every value [x] of the batch is
    mapped to [(x / m + 1) / 2], where [m] is the largest absolute value of
    the batch; when [m] is not zero the inverse affine map
    [y -> (2 y - 1) * m] gives back the original values (exactly, in rational
    arithmetic). *)
Theorem max_abs_rescale_round_trip (mean std : list Q -> Q) (cast : Q -> Q)
    (cfg : config) (batch : list (list (list Q))) (m : Q) :
  no_norm cfg = false -> norm_data cfg = true ->
  np_max (H := Q_float mean std cast) (Qabs <$> flat3 batch) = Ok m ->
  ~ (m == 0)%Q ->
  m ∈ Qabs <$> flat3 batch /\
  Forall (fun x => (Qabs x <= m)%Q) (flat3 batch) /\
  exists out,
    normalize (H := Q_float mean std cast) cfg batch = Ok out /\
    out = map3 (fun x => (x / m + 1) / 2)%Q batch /\
    Forall2 Qeq (flat3 (map3 (denormalize m) out)) (flat3 batch).
Proof.
  intros Hnn Hnd Em Hm. split_and!.
  - unfold np_max in Em.
    destruct (flat3 batch) as [|x xs]; [discriminate Em|].
    cbn [fmap list_fmap] in Em. injection Em as <-.
    rewrite fmap_cons. apply foldl_Qmax_elem.
  - unfold np_max in Em.
    destruct (flat3 batch) as [|x xs]; [discriminate Em|].
    cbn [fmap list_fmap] in Em. injection Em as <-.
    destruct (foldl_Qmax_ge (Qabs <$> xs) (Qabs x)) as [H1 H2].
    constructor; [exact H1|]. apply Forall_forall. intros y Hy.
    apply (proj1 (Forall_forall _ _) H2). by apply list_elem_of_fmap_2.
  - unfold normalize. rewrite Hnn, Hnd. cbn [negb].
    cbn [f_abs Q_float] in *. rewrite Em, bind_ret_l.
    eexists. split; [reflexivity|]. cbn [f_div f_add f_one f_two Q_float].
    rewrite map3_map3. split; [reflexivity|].
    rewrite map3_map3, flat3_map3. clear Em.
    induction (flat3 batch) as [|x xs IH]; cbn [fmap list_fmap];
      constructor; [|exact IH].
    by apply denormalize_rescale.
Qed.

Lemma max_abs_rescale_round_trip_witness :
  4%Q ∈ Qabs <$> flat3 [[[1; -4]; [2; 0]]]%Q /\
  Forall (fun x => (Qabs x <= 4)%Q) (flat3 [[[1; -4]; [2; 0]]]%Q) /\
  exists out,
    normalize (H := example_float)
      {| no_norm := false; norm_data := true; qubo_size := 2;
         scramble_qubos := false |} [[[1; -4]; [2; 0]]]%Q = Ok out /\
    out = map3 (fun x => (x / 4 + 1) / 2)%Q [[[1; -4]; [2; 0]]]%Q /\
    Forall2 Qeq (flat3 (map3 (denormalize 4) out)) (flat3 [[[1; -4]; [2; 0]]]%Q).
Proof.
  apply (max_abs_rescale_round_trip (fun _ => 0%Q) (fun _ => 1%Q) (fun x => x)
           {| no_norm := false; norm_data := true; qubo_size := 2;
              scramble_qubos := false |} [[[1; -4]; [2; 0]]]%Q 4%Q).
  - reflexivity.
  - reflexivity.
  - vm_compute. reflexivity.
  - intros E. vm_compute in E. discriminate E.
Defined.

(** * Further properties of the pipeline *)

(** ** The scrambler, continued *)

Lemma transp_involutive (i1 i2 r : nat) : transp i1 i2 (transp i1 i2 r) = r.
Proof. unfold transp. repeat case_decide; congruence. Qed.

Lemma swap_rows_involutive {A : Type} (m : list (list A)) (i1 i2 : nat) :
  i1 < length m -> i2 < length m ->
  swap_rows (swap_rows m i1 i2) i1 i2 = m.
Proof.
  intros H1 H2. apply list_eq. intros r.
  rewrite swap_rows_lookup by (by rewrite length_swap_rows).
  rewrite swap_rows_lookup by done. by rewrite transp_involutive.
Qed.

Lemma for_in_seq_split {S : Type} (body : S -> nat -> result S) (n j : nat) (s : S) :
  j < n ->
  for_in body (seq 0 n) s =
    for_in body (seq 0 j) s ≫= fun s1 =>
    body s1 j ≫= for_in body (seq (Datatypes.S j) (n - Datatypes.S j)).
Proof.
  intros Hj. replace n with (j + Datatypes.S (n - Datatypes.S j)) at 1 by lia.
  rewrite seq_app, for_in_app. cbn [seq for_in Nat.add]. reflexivity.
Qed.

(** The scrambler run a second time with the same draws undoes the first
    run: every exchange of two rows is its own inverse. *)
Theorem scramble_twice_restores_batch {A : Type} (q n_problems : nat) (d : draws)
    (qubo_matrices : list (list (list A))) :
  n_problems <= length qubo_matrices ->
  Forall (fun m => length m = q) qubo_matrices ->
  (forall j i1 i2, j < n_problems -> d j = Some (i1, i2) -> i1 < q /\ i2 < q) ->
  scramble n_problems d qubo_matrices ≫= scramble n_problems d
    = Ok qubo_matrices.
Proof.
  intros Hn Hq Hd.
  assert (forall (qs : list (list (list A))) j i1 i2,
            length qs = length qubo_matrices ->
            0 <= j < 0 + n_problems -> d j = Some (i1, i2) ->
            j < length qs /\ i1 < q /\ i2 < q) as Hd'.
  { intros qs j i1 i2 Hl Hj Ej. destruct (Hd j i1 i2 ltac:(lia) Ej). lia. }
  destruct (scramble_loop d q n_problems 0 qubo_matrices) as (qs1 & E1 & L1 & K1);
    [intros j i1 i2; by apply Hd' | done |].
  assert (Forall (fun m => length m = q) qs1) as Hq1.
  { apply Forall_lookup. intros j m Em. rewrite K1 in Em.
    case_decide as Hj.
    - destruct (qubo_matrices !! j) as [m0|] eqn:E0; [|discriminate Em].
      injection Em as <-.
      assert (length m0 = q) as L0 by by eapply (proj1 (Forall_lookup _ _) Hq).
      unfold scrambled. destruct (d j) as [[i1 i2]|]; [|done].
      by rewrite length_swap_rows.
    - by eapply (proj1 (Forall_lookup _ _) Hq). }
  destruct (scramble_loop d q n_problems 0 qs1) as (qs2 & E2 & L2 & K2);
    [intros j i1 i2; by apply Hd' | done |].
  unfold scramble, range. rewrite E1, bind_ret_l, E2. f_equal.
  apply list_eq. intros j. rewrite K2, K1.
  case_decide as Hj; [|done].
  destruct (qubo_matrices !! j) as [m0|] eqn:E0; [|done]. cbn. f_equal.
  assert (length m0 = q) as L0 by by eapply (proj1 (Forall_lookup _ _) Hq).
  unfold scrambled. destruct (d j) as [[i1 i2]|] eqn:Ed; [|done].
  destruct (Hd j i1 i2 ltac:(lia) Ed).
  apply swap_rows_involutive; lia.
Qed.

Lemma scramble_twice_restores_batch_witness :
  scramble 2 (fun j => if decide (j = 0) then Some (0, 1) else None)
      [[[1; 2]; [3; 4]]; [[5; 6]; [7; 8]]]%Z
    ≫= scramble 2 (fun j => if decide (j = 0) then Some (0, 1) else None)
  = Ok [[[1; 2]; [3; 4]]; [[5; 6]; [7; 8]]]%Z.
Proof.
  apply (scramble_twice_restores_batch 2 2
           (fun j => if decide (j = 0) then Some (0, 1) else None)
           [[[1; 2]; [3; 4]]; [[5; 6]; [7; 8]]]%Z).
  - simpl. lia.
  - repeat constructor.
  - intros j i1 i2 _. case_decide; intros [= <- <-]. lia.
Defined.

(** With scrambling, a batch shorter than [n_problems] is not safe: as soon
    as the draws elect an index past the end of the batch, the loop raises
    [IndexError]. *)
Theorem scramble_short_batch_raises {A : Type} (q n_problems j : nat) (d : draws)
    (qubo_matrices : list (list (list A))) :
  length qubo_matrices <= j < n_problems ->
  is_Some (d j) ->
  (forall j' i1 i2, j' < j -> d j' = Some (i1, i2) ->
     j' < length qubo_matrices /\ i1 < q /\ i2 < q) ->
  Forall (fun m => length m = q) qubo_matrices ->
  scramble n_problems d qubo_matrices = Raise IndexError.
Proof.
  intros Hj [[i1 i2] Ed] Hd Hq. unfold scramble, range.
  rewrite (for_in_seq_split _ n_problems j) by lia.
  destruct (scramble_loop d q j 0 qubo_matrices) as (qs1 & E1 & L1 & _).
  { intros j' a b Hj' Ej'. apply (Hd j' a b); [lia | done]. }
  { done. }
  rewrite E1, bind_ret_l.
  assert (scramble_step d qs1 j = Raise IndexError) as ->; [|done].
  unfold scramble_step. rewrite Ed.
  unfold getitem. rewrite (proj2 (lookup_ge_None qs1 j)) by lia. reflexivity.
Qed.

Lemma scramble_short_batch_raises_witness :
  scramble 2 (fun j => if decide (j = 1) then Some (0, 0) else None)
    [[[1; 2]; [3; 4]]%Z] = Raise IndexError.
Proof.
  apply (scramble_short_batch_raises 2 2 1
           (fun j => if decide (j = 1) then Some (0, 0) else None)
           [[[1; 2]; [3; 4]]%Z]).
  - simpl. lia.
  - by eexists.
  - intros j' i1 i2 Hj'. rewrite decide_False by lia. discriminate.
  - repeat constructor.
Defined.

(** ** The data tensor, continued *)

Lemma for_in_invariant {S A : Type} (I : S -> Prop) (body : S -> A -> result S)
    (xs : list A) :
  (forall s x s', I s -> body s x = Ok s' -> I s') ->
  forall s s', I s -> for_in body xs s = Ok s' -> I s'.
Proof.
  intros Hbody. induction xs as [|x xs IH]; intros s s' Hs E; cbn [for_in] in E.
  - by injection E as <-.
  - inv_bind E. eapply IH; [|exact E]. by eapply Hbody.
Qed.

Section GenDataMore.
Context {P R : Type} `{Float R}.
Implicit Types (cls : problem_class P R) (data : list (list (list R)))
  (labels : list Z) (cfg : config) (m : list (list R)).

Lemma is_square_spec (q : nat) m :
  is_square q m = true <-> length m = q /\ Forall (fun row => length row = q) m.
Proof.
  unfold is_square. rewrite andb_true_iff, bool_decide_eq_true.
  rewrite forallb_forall, Forall_forall.
  split; intros [Hl Hr]; (split; [done|]); intros row Hrow.
  - eapply bool_decide_eq_true_1, Hr. by apply list_elem_of_In.
  - eapply bool_decide_eq_true_2, Hr. by apply list_elem_of_In.
Qed.

Lemma is_square_zeros2 (q : nat) : is_square q (zeros2 q) = true.
Proof.
  apply is_square_spec. unfold zeros2. split; [by rewrite length_replicate|].
  apply Forall_replicate. by rewrite length_replicate.
Qed.

Lemma is_square_map (q : nat) (f : R -> R) m :
  is_square q m = true -> is_square q (map (map f) m) = true.
Proof.
  rewrite !is_square_spec. intros [Hl Hr]. split; [by rewrite length_map|].
  apply Forall_forall. intros row Hrow.
  apply list_elem_of_fmap in Hrow as (row0 & -> & Hrow0).
  rewrite length_map. by apply (proj1 (Forall_forall _ _) Hr).
Qed.

Lemma squares_map3 (q : nat) (f : R -> R) (a : list (list (list R))) :
  Forall (fun m => is_square q m = true) a ->
  Forall (fun m => is_square q m = true) (map3 f a).
Proof.
  intros Ha. unfold map3. apply Forall_forall. intros m Hm.
  apply list_elem_of_fmap in Hm as (m0 & -> & Hm0).
  apply is_square_map. by apply (proj1 (Forall_forall _ _) Ha).
Qed.

Lemma setitem_slice_squares (q : nat) data start stop vals data' :
  setitem_slice q data start stop vals = Ok data' ->
  Forall (fun m => is_square q m = true) data ->
  Forall (fun m => is_square q m = true) data'.
Proof.
  unfold setitem_slice. intros E Hd.
  destruct (bool_decide _ && _ && _) eqn:C; [|discriminate].
  injection E as <-.
  apply andb_prop in C as [C _]. apply andb_prop in C as [_ C].
  rewrite forallb_forall in C.
  apply Forall_app. split; [by apply Forall_take|].
  apply Forall_app. split; [|by apply Forall_drop].
  apply squares_map3. apply Forall_forall. intros m Hm.
  apply C. by apply list_elem_of_In.
Qed.

(** Whenever [_gen_data] returns, the tensor has the shape
    [(len(problems) * n_problems, q, q)], there is one label per record,
    and [all_problems] holds the problems of every class, in order. *)
Theorem gen_data_shapes cfg (problems : list (problem_class P R))
    (d : nat -> draws) (n_problems : nat) (all_problems : list (list P))
    data labels :
  _gen_data cfg problems d n_problems = Ok (all_problems, data, labels) ->
  all_problems = (fun cls => gen_problems cls n_problems) <$> problems /\
  length data = length problems * n_problems /\
  length labels = length problems * n_problems /\
  Forall (fun m => length m = qubo_size cfg /\
                   Forall (fun row => length row = qubo_size cfg) m) data.
Proof.
  intros E. pose proof (_gen_data_Ok _ _ _ _ _ _ _ E) as (Ha & Hd & Hl & _).
  split_and!; [done..|].
  unfold _gen_data in E.
  eapply (for_in_invariant
            (fun st : gen_state =>
               Forall (fun m => is_square (qubo_size cfg) m = true) st.1.2))
    in E.
  - cbn in E. eapply Forall_impl; [exact E|].
    intros m Hm. by apply is_square_spec.
  - intros [[ap0 data0] labels0] [i cls] [[ap1 data1] labels1] Hs Es.
    cbn in Hs |- *. unfold gen_data_step in Es.
    inv_bind Es. inv_bind Es. injection Es as <- <- <-.
    case_decide; by eapply setitem_slice_squares.
  - cbn. apply Forall_replicate, is_square_zeros2.
Qed.

Lemma swap_rows_Forall (Q : list R -> Prop) m (i1 i2 : nat) :
  Forall Q m -> Forall Q (swap_rows m i1 i2).
Proof.
  intros Hm. apply Forall_lookup. intros r row' E.
  unfold swap_rows in E. rewrite list_lookup_imap in E.
  destruct (m !! r) as [row|] eqn:Er; [|discriminate E].
  cbn in E. injection E as <-.
  destruct (m !! transp i1 i2 r) as [row''|] eqn:Et; cbn.
  - by eapply (proj1 (Forall_lookup _ _) Hm).
  - by eapply (proj1 (Forall_lookup _ _) Hm).
Qed.

Lemma is_square_swap_rows (q : nat) m (i1 i2 : nat) :
  is_square q m = true -> is_square q (swap_rows m i1 i2) = true.
Proof.
  rewrite !is_square_spec. intros [Hl Hr].
  split; [by rewrite length_swap_rows | by apply swap_rows_Forall].
Qed.

Lemma prepare_batch_returns cfg (n : nat) (d : draws) cls :
  no_norm cfg = true \/ norm_data cfg = false ->
  class_ready cfg n d cls ->
  exists b,
    prepare_batch cfg n d cls = Ok b /\
    length b = length (gen_problems cls n) /\
    Forall (fun m => is_square (qubo_size cfg) m = true) b.
Proof.
  intros Hnorm (Hk & Hsq & Hdr).
  unfold prepare_batch, gen_qubo_matrices.
  set (qs := gen_qubo_matrix cls <$> gen_problems cls n).
  assert (Forall (fun m => is_square (qubo_size cfg) m = true) qs) as Hqs.
  { subst qs. apply Forall_fmap. exact Hsq. }
  assert (length qs = length (gen_problems cls n)) as Lqs.
  { subst qs. by rewrite length_fmap. }
  assert (exists qs1,
            (if scramble_qubos cfg then scramble n d qs else Ok qs) = Ok qs1 /\
            length qs1 = length qs /\
            Forall (fun m => is_square (qubo_size cfg) m = true) qs1)
    as (qs1 & -> & L1 & Hq1).
  { destruct (scramble_qubos cfg) eqn:Es; [|by exists qs].
    destruct (scramble_loop d (qubo_size cfg) n 0 qs) as (qs1 & E1 & L1 & K1).
    { intros j i1 i2 Hj Ej. rewrite Lqs. apply Hdr; [done | lia | done]. }
    { eapply Forall_impl; [exact Hqs|].
      intros m Hm. by apply is_square_spec in Hm as [-> _]. }
    exists qs1. split_and!; [done..|].
    apply Forall_lookup. intros j m Em. rewrite K1 in Em.
    case_decide.
    - destruct (qs !! j) as [m0|] eqn:E0; [|discriminate Em].
      injection Em as <-.
      pose proof (proj1 (Forall_lookup _ _) Hqs j m0 E0) as Hm0. cbn in Hm0.
      unfold scrambled. destruct (d j) as [[i1 i2]|]; [|done].
      by apply is_square_swap_rows.
    - by apply (proj1 (Forall_lookup _ _) Hqs j m Em). }
  rewrite bind_ret_l. unfold normalize.
  destruct (no_norm cfg) eqn:En; cbn [negb].
  { exists qs1. split_and!; [done | congruence | done]. }
  destruct (norm_data cfg) eqn:Ed.
  - by destruct Hnorm.
  - eexists. split_and!; [done | |].
    + rewrite length_map3. congruence.
    + by apply squares_map3.
Qed.

Lemma gen_data_step_returns cfg (n : nat) (d : nat -> draws) (i : nat) cls
    (ap : list (list P)) data labels :
  no_norm cfg = true \/ norm_data cfg = false ->
  class_ready cfg n (d i) cls ->
  (i + 1) * n <= length data ->
  exists ap' data' labels',
    gen_data_step cfg n d (ap, data, labels) (i, cls) = Ok (ap', data', labels') /\
    length data' = length data.
Proof.
  intros Hnorm Hready Hlen.
  destruct (prepare_batch_returns cfg n (d i) cls Hnorm Hready)
    as (b & Eb & Lb & Hsq).
  destruct Hready as (Hk & _ & _).
  unfold gen_data_step. rewrite Eb, bind_ret_l.
  assert (forall stop, stop <= length data ->
            length b = stop - i * n ->
            setitem_slice (qubo_size cfg) data (i * n) stop b
              = Ok (take (i * n) data ++ map3 f32 b ++ drop stop data))
    as Hset.
  { intros stop Hstop Hb. unfold setitem_slice.
    rewrite !Nat.min_l by nia.
    rewrite bool_decide_eq_true_2 by done.
    rewrite (proj2 (forallb_forall _ _)); cycle 1.
    { intros m Hm. apply (proj1 (Forall_forall _ _) Hsq).
      by apply list_elem_of_In. }
    rewrite (bool_decide_eq_true_2 (b <> [])); [done|].
    intros ->. cbn in Lb. lia. }
  case_decide.
  - rewrite Hset by nia. rewrite bind_ret_l. do 3 eexists. split; [done|].
    rewrite !length_app, length_take, length_map3, length_drop. nia.
  - rewrite Hset by nia. rewrite bind_ret_l. do 3 eexists. split; [done|].
    rewrite !length_app, length_take, length_map3, length_drop. nia.
Qed.

Lemma gen_data_loop_returns cfg (n : nat) (d : nat -> draws)
    (cs : list (problem_class P R)) :
  no_norm cfg = true \/ norm_data cfg = false ->
  forall k (ap : list (list P)) data labels,
  (forall i cls, cs !! i = Some cls -> class_ready cfg n (d (k + i)) cls) ->
  (k + length cs) * n <= length data ->
  exists st,
    for_in (gen_data_step cfg n d) (enumerate_from k cs) (ap, data, labels)
      = Ok st.
Proof.
  intros Hnorm. induction cs as [|c cs IH]; intros k ap data labels Hready Hlen.
  - by eexists.
  - rewrite enumerate_from_cons. cbn [for_in]. cbn [length] in Hlen.
    destruct (gen_data_step_returns cfg n d k c ap data labels Hnorm)
      as (ap' & data' & labels' & E & L); [|nia|].
    { specialize (Hready 0 c eq_refl). by rewrite Nat.add_0_r in Hready. }
    rewrite E, bind_ret_l. apply IH; [|rewrite L; nia].
    intros i cls Ei. specialize (Hready (Datatypes.S i) cls Ei).
    by replace (Datatypes.S k + i) with (k + Datatypes.S i) by lia.
Qed.

(** With normalization switched off, or with the mean/std policy (the one
    policy that does not divide the stack in place), [_gen_data] returns
    when every class generates between one and [n_problems] problems with
    matrices of the configured size and the draws of the scrambler (if it
    is enabled) stay inside the batch. *)
Theorem gen_data_returns cfg (problems : list (problem_class P R))
    (d : nat -> draws) (n_problems : nat) :
  no_norm cfg = true \/ norm_data cfg = false ->
  (forall i cls, problems !! i = Some cls ->
     class_ready cfg n_problems (d i) cls) ->
  exists (all_problems : list (list P)) data labels,
    _gen_data cfg problems d n_problems = Ok (all_problems, data, labels).
Proof.
  intros Hnorm Hready. unfold _gen_data.
  edestruct (gen_data_loop_returns cfg n_problems d problems Hnorm 0)
    as ([[ap data] labels] & E); [exact Hready| |by eauto].
  rewrite length_replicate. lia.
Qed.

(** A class that generates more than [n_problems] matrices (for a
    positive [n_problems]) makes [_gen_data] raise [ValueError]: the batch
    does not fit its block. *)
Theorem gen_data_oversize_batch_raises cfg cls
    (rest : list (problem_class P R)) (d : nat -> draws) (n_problems : nat)
    (b : list (list (list R))) :
  prepare_batch cfg n_problems (d 0) cls = Ok b ->
  0 < n_problems < length (gen_problems cls n_problems) ->
  _gen_data cfg (cls :: rest) d n_problems = Raise ValueError.
Proof.
  intros Eb Hbig. pose proof (prepare_batch_length _ _ _ _ _ Eb) as Lb.
  unfold _gen_data. rewrite enumerate_from_cons. cbn [for_in].
  match goal with
  | |- gen_data_step ?c ?n ?dd ?st ?x ≫= _ = _ =>
      assert (gen_data_step c n dd st x = Raise ValueError) as ->; [|done]
  end.
  unfold gen_data_step. rewrite Eb, bind_ret_l.
  rewrite decide_False by lia.
  unfold setitem_slice. rewrite length_replicate. cbn [length].
  rewrite bool_decide_eq_false_2; [done|].
  rewrite !Nat.min_l by lia. lia.
Qed.

(** Truncating to the instance count of the first class, on a run with a
    single class that generated at most [n_problems] problems, leaves one
    record per generated problem: the prepared batch, without any of the
    zero records, each with the label 0. *)
Theorem single_class_truncation_drops_zero_records cfg cls (d : nat -> draws)
    (n_problems : nat) (all_problems : list (list P)) data labels :
  _gen_data cfg [cls] d n_problems = Ok (all_problems, data, labels) ->
  exists b,
    prepare_batch cfg n_problems (d 0) cls = Ok b /\
    length b = length (gen_problems cls n_problems) /\
    truncate_to_instances all_problems data labels
      = Ok (map3 f32 b, replicate (length b) 0%Z).
Proof.
  intros E. apply _gen_data_Ok in E as (-> & Hd & Hl & Hblocks).
  destruct (Hblocks 0 cls eq_refl) as (b & Eb & Lb & Hb & Hj).
  exists b. split_and!; [done..|].
  unfold truncate_to_instances. cbn [fmap list_fmap getitem lookup list_lookup].
  rewrite bind_ret_l, <- Lb. f_equal. f_equal.
  - apply list_eq. intros j. unfold map3.
    destruct (decide (j < length b)) as [Hlt|Hge].
    + rewrite lookup_take_lt by done.
      destruct (Hj j ltac:(lia)) as [Hdj _]. cbn in Hdj.
      rewrite Hdj, decide_True by done. by rewrite list_lookup_fmap.
    + rewrite lookup_take_ge by lia. symmetry. apply lookup_ge_None.
      rewrite length_map. lia.
  - apply list_eq. intros j.
    destruct (decide (j < length b)) as [Hlt|Hge].
    + rewrite lookup_take_lt by done.
      destruct (Hj j ltac:(lia)) as [_ Hlj]. cbn in Hlj.
      rewrite Hlj. symmetry. by apply lookup_replicate_2.
    + rewrite lookup_take_ge by lia. symmetry. apply lookup_ge_None.
      rewrite length_replicate. lia.
Qed.

End GenDataMore.

Lemma gen_data_shapes_witness :
  [[0]; [0; 1]] = (fun cls => gen_problems cls 2) <$> example_problems /\
  length [[[5%Q]]; [[0%Q]]; [[7%Q]]; [[7%Q]]] = length example_problems * 2 /\
  length [0; 0; 1; 1]%Z = length example_problems * 2 /\
  Forall (fun m : list (list Q) =>
            length m = qubo_size example_cfg /\
            Forall (fun row => length row = qubo_size example_cfg) m)
    [[[5%Q]]; [[0%Q]]; [[7%Q]]; [[7%Q]]].
Proof.
  apply (gen_data_shapes (H := example_float) example_cfg example_problems
           example_draws 2 [[0]; [0; 1]]
           [[[5%Q]]; [[0%Q]]; [[7%Q]]; [[7%Q]]] [0; 0; 1; 1]%Z).
  reflexivity.
Defined.

Lemma gen_data_returns_witness :
  exists (all_problems : list (list nat)) data labels,
    _gen_data (H := example_float) example_cfg example_problems example_draws 2
      = Ok (all_problems, data, labels).
Proof.
  apply (gen_data_returns (H := example_float) example_cfg example_problems
           example_draws 2).
  - left. reflexivity.
  - intros [|[|i]] cls Ei; try discriminate Ei; injection Ei as <-;
      (split_and!; [simpl; lia | simpl; lia | repeat constructor | discriminate]).
Defined.

Lemma gen_data_oversize_batch_raises_witness :
  _gen_data (H := example_float) example_cfg
    [{| gen_problems := fun _ => [0; 1; 2];
        gen_qubo_matrix := fun _ => [[5%Q]] |}] example_draws 2
  = Raise ValueError.
Proof.
  apply (gen_data_oversize_batch_raises (H := example_float) example_cfg
           {| gen_problems := fun _ => [0; 1; 2];
              gen_qubo_matrix := fun _ => [[5%Q]] |} [] example_draws 2
           [[[5%Q]]; [[5%Q]]; [[5%Q]]]).
  - reflexivity.
  - simpl. lia.
Defined.

Lemma single_class_truncation_drops_zero_records_witness :
  exists b,
    prepare_batch (H := example_float) example_cfg 2 (example_draws 0)
      (example_class 1 5%Q) = Ok b /\
    length b = length (gen_problems (example_class 1 5%Q) 2) /\
    truncate_to_instances [[0]] [[[5%Q]]; [[0%Q]]] [0; 0]%Z
      = Ok (map3 (@f32 Q example_float) b, replicate (length b) 0%Z).
Proof.
  apply (single_class_truncation_drops_zero_records (H := example_float)
           example_cfg (example_class 1 5%Q) example_draws 2
           [[0]] [[[5%Q]]; [[0%Q]]] [0; 0]%Z).
  reflexivity.
Defined.

(** ** Generation in chunks *)

Section ChunkFacts.
Context {P R : Type} `{Float R}.

Lemma gen_data_chunks_loop (cfg : config) (chunks n : nat)
    (problems : nat -> list (problem_class P R)) (d : nat -> nat -> draws)
    (m : nat) :
  forall k (files files' : list (nat * list (list (list R)) * list Z)),
  for_in (fun files chunk =>
            let n_problems := n / chunks in
            st ← _gen_data cfg (problems chunk) (d chunk) n_problems;
            Ok (files ++ [(chunk, st.1.2, st.2)]))
    (seq k m) files = Ok files' ->
  exists new,
    files' = files ++ new /\ length new = m /\
    forall c, c < m ->
      exists (ap : list (list P)) data labels,
        _gen_data cfg (problems (k + c)) (d (k + c)) (n / chunks)
          = Ok (ap, data, labels) /\
        new !! c = Some (k + c, data, labels).
Proof.
  induction m as [|m IH]; intros k files files' E; cbn [seq for_in] in E.
  - injection E as <-. exists []. rewrite app_nil_r.
    split_and!; [done..|]. intros c Hc. lia.
  - apply bind_Ok in E as (files1 & E1 & E).
    apply bind_Ok in E1 as ([[ap data] labels] & Eg & E1).
    injection E1 as <-. cbn [fst snd] in E.
    apply IH in E as (new & -> & Ln & Hnew).
    exists ((k, data, labels) :: new). split_and!.
    + by rewrite <- app_assoc.
    + cbn. lia.
    + intros [|c] Hc.
      * rewrite Nat.add_0_r. by exists ap, data, labels.
      * destruct (Hnew c ltac:(lia)) as (ap' & data' & labels' & Eg' & El).
        replace (k + Datatypes.S c) with (Datatypes.S k + c) by lia.
        by exists ap', data', labels'.
Qed.

(** [gen_data_chunks] writes one file per chunk, in order; the file of
    chunk [c] holds the result of [_gen_data] for
    [n_problems // chunks] problems per class, so that over all chunks a
    class gets [n_problems - n_problems % chunks] records: the remainder
    of the division is never generated. *)
Theorem gen_data_chunks_sizes (cfg : config) (chunks n_problems : nat)
    (problems : nat -> list (problem_class P R)) (d : nat -> nat -> draws)
    (files : list (nat * list (list (list R)) * list Z)) :
  gen_data_chunks cfg chunks n_problems problems d = Ok files ->
  length files = chunks /\
  (forall c, c < chunks ->
     exists (ap : list (list P)) data labels,
       _gen_data cfg (problems c) (d c) (n_problems / chunks)
         = Ok (ap, data, labels) /\
       files !! c = Some (c, data, labels) /\
       length data = length (problems c) * (n_problems / chunks) /\
       length labels = length (problems c) * (n_problems / chunks)) /\
  chunks * (n_problems / chunks) = n_problems - n_problems mod chunks.
Proof.
  unfold gen_data_chunks, range. intros E.
  apply gen_data_chunks_loop in E as (new & -> & Ln & Hnew).
  cbn [app]. split_and!; [done| |].
  - intros c Hc. destruct (Hnew c Hc) as (ap & data & labels & Eg & El).
    exists ap, data, labels. cbn [Nat.add] in Eg, El.
    pose proof (gen_data_shapes _ _ _ _ _ _ _ Eg) as (_ & Hd & Hl & _).
    by split_and!.
  - destruct chunks as [|chunks']; [cbn; lia|].
    pose proof (Nat.div_mod_eq n_problems (Datatypes.S chunks')). lia.
Qed.

End ChunkFacts.

Lemma gen_data_chunks_sizes_witness :
  length [(0, [[[5%Q]]; [[7%Q]]], [0; 1]%Z); (1, [[[5%Q]]; [[7%Q]]], [0; 1]%Z)] = 2 /\
  (forall c, c < 2 ->
     exists (ap : list (list nat)) data labels,
       _gen_data (H := example_float) example_cfg example_problems
         example_draws (3 / 2) = Ok (ap, data, labels) /\
       [(0, [[[5%Q]]; [[7%Q]]], [0; 1]%Z); (1, [[[5%Q]]; [[7%Q]]], [0; 1]%Z)] !! c
         = Some (c, data, labels) /\
       length data = length example_problems * (3 / 2) /\
       length labels = length example_problems * (3 / 2)) /\
  2 * (3 / 2) = 3 - 3 mod 2.
Proof.
  apply (gen_data_chunks_sizes (H := example_float) example_cfg 2 3
           (fun _ => example_problems) (fun _ => example_draws)
           [(0, [[[5%Q]]; [[7%Q]]], [0; 1]%Z); (1, [[[5%Q]]; [[7%Q]]], [0; 1]%Z)]).
  reflexivity.
Defined.

(** ** The reduced input of the QA branch *)

Section QAFacts.
Context {R : Type}.
Implicit Types (d : list (list R)).

Lemma length_bind_fmap {A B C : Type} (f : A -> B -> C) (l : list A) (k : list B) :
  length (x ← l; f x <$> k) = length l * length k.
Proof.
  induction l as [|x l IH]; [done|].
  change (length ((f x <$> k) ++ (y ← l; f y <$> k))
          = Datatypes.S (length l) * length k).
  rewrite length_app, length_fmap, IH. lia.
Qed.

Lemma triu_indices_elem (size i j : nat) :
  (i, j) ∈ triu_indices size <-> i < j < size.
Proof.
  unfold triu_indices, range. rewrite list_elem_of_bind. split.
  - intros (i' & Hj & Hi). apply list_elem_of_fmap in Hj as (j' & [= -> ->] & Hj').
    apply elem_of_seq in Hi. apply elem_of_seq in Hj'. lia.
  - intros Hij. exists i. split.
    + apply list_elem_of_fmap. exists j. split; [done|].
      apply elem_of_seq. lia.
    + apply elem_of_seq. lia.
Qed.

Lemma slice2_entry d (r0 r1 c0 c1 a b : nat) :
  a < r1 - r0 -> b < c1 - c0 ->
  (slice2 d r0 r1 c0 c1 !! a ≫= fun row => row !! b)
  = (d !! (r0 + a) ≫= fun row => row !! (c0 + b)).
Proof.
  intros Ha Hb. unfold slice2.
  rewrite list_lookup_fmap, lookup_take_lt, lookup_drop by done.
  destruct (d !! (r0 + a)) as [row|]; [|done]. cbn.
  by rewrite lookup_take_lt, lookup_drop.
Qed.

Lemma getitem_positions_Ok (quadrant d : list (list R)) (f : nat * nat -> nat * nat)
    (idx : list (nat * nat)) :
  (forall ab, ab ∈ idx ->
     (quadrant !! ab.1 ≫= fun row => row !! ab.2)
     = (d !! (f ab).1 ≫= fun row => row !! (f ab).2) /\
     is_Some (d !! (f ab).1 ≫= fun row => row !! (f ab).2)) ->
  exists v,
    getitem_positions quadrant idx = Ok v /\
    Forall2 (fun rc x => (d !! rc.1 ≫= fun row => row !! rc.2) = Some x)
      (f <$> idx) v.
Proof.
  unfold getitem_positions. induction idx as [|ab idx IH]; intros Hidx.
  - exists []. split; [done | constructor].
  - destruct IH as (v & Ev & Hv).
    { intros ab' Hab'. apply Hidx. by apply list_elem_of_further. }
    destruct (Hidx ab) as [Hq [x Hx]]; [apply list_elem_of_here|].
    rewrite Hx in Hq.
    exists (x :: v). split.
    + rewrite mapM_result_cons, Ev. unfold getitem.
      destruct (quadrant !! ab.1) as [row|]; [|discriminate Hq].
      cbn in Hq. rewrite bind_ret_l, Hq. reflexivity.
    + rewrite fmap_cons. by constructor.
Qed.

Lemma qa_loop (size : nat) d (ijs : list (nat * nat)) :
  size * size <= length d ->
  Forall (fun row => size * size <= length row) d ->
  (forall ij, ij ∈ ijs -> ij.1 < size /\ ij.2 < size) ->
  forall acc,
  exists v,
    for_in (fun tmp_data (ij : nat * nat) =>
              let quadrant :=
                slice2 d (ij.1 * size) ((ij.1 + 1) * size)
                         (ij.2 * size) ((ij.2 + 1) * size) in
              x ← getitem_positions quadrant (triu_indices size);
              Ok (tmp_data ++ x))
      ijs acc = Ok (acc ++ v) /\
    Forall2 (fun rc x => (d !! rc.1 ≫= fun row => row !! rc.2) = Some x)
      (ij ← ijs;
       (fun ab : nat * nat => (ij.1 * size + ab.1, ij.2 * size + ab.2))
         <$> triu_indices size) v.
Proof.
  intros Hrows Hcols. induction ijs as [|ij ijs IH]; intros Hij acc.
  - exists []. rewrite app_nil_r. split; [done | constructor].
  - cbn [for_in].
    destruct (Hij ij) as [Hi Hj]; [apply list_elem_of_here|].
    destruct (getitem_positions_Ok
                (slice2 d (ij.1 * size) ((ij.1 + 1) * size)
                   (ij.2 * size) ((ij.2 + 1) * size)) d
                (fun ab => (ij.1 * size + ab.1, ij.2 * size + ab.2))
                (triu_indices size)) as (x & Ex & Hx).
    { intros [a b] Hab. apply triu_indices_elem in Hab. cbn [fst snd].
      split; [apply slice2_entry; nia|].
      destruct (lookup_lt_is_Some_2 d (ij.1 * size + a)) as [row Er]; [nia|].
      rewrite Er. cbn.
      apply lookup_lt_is_Some_2.
      pose proof (proj1 (Forall_lookup _ _) Hcols _ _ Er) as Hl. cbn in Hl. nia. }
    rewrite Ex, bind_ret_l.
    destruct (IH (fun ij' H' => Hij ij' (list_elem_of_further _ _ _ H')) (acc ++ x))
      as (v & Ev & Hv).
    exists (x ++ v). split; [by rewrite app_assoc|].
    cbn [mbind list_bind]. by apply Forall2_app.
Qed.

(** On a matrix with at least [size * size] rows and columns the QA
    branch returns, in order, the entries at the positions
    [(i * size + a, j * size + b)] for [i < j < size] and [a < b < size].
    All of them lie strictly above the diagonal, and there are
    [len(triu_indices(size, 1)) ** 2] of them. *)
Theorem qa_simplify_matrix_keeps_upper_blocks (size : nat) d :
  size * size <= length d ->
  Forall (fun row => size * size <= length row) d ->
  exists v,
    qa_simplify_matrix size d = Ok v /\
    Forall2 (fun rc x => (d !! rc.1 ≫= fun row => row !! rc.2) = Some x)
      (qa_positions size) v /\
    Forall (fun rc : nat * nat => rc.1 < rc.2 < size * size) (qa_positions size) /\
    length v = length (triu_indices size) * length (triu_indices size).
Proof.
  intros Hrows Hcols.
  destruct (qa_loop size d (triu_indices size) Hrows Hcols) with (acc := @nil R)
    as (v & Ev & Hv).
  { intros [i j] Hij. apply triu_indices_elem in Hij. cbn. lia. }
  exists v. split_and!; [done | done | |].
  - apply Forall_forall. intros [r c] Hrc. unfold qa_positions in Hrc.
    apply list_elem_of_bind in Hrc as ([i j] & Hab & Hij).
    apply list_elem_of_fmap in Hab as ([a b] & [= -> ->] & Hab).
    apply triu_indices_elem in Hij. apply triu_indices_elem in Hab.
    cbn [fst snd]. nia.
  - rewrite <- (Forall2_length _ _ _ Hv). unfold qa_positions.
    apply length_bind_fmap.
Qed.

End QAFacts.

Lemma qa_simplify_matrix_keeps_upper_blocks_witness :
  exists v,
    qa_simplify_matrix 2
      [[1; 2; 3; 4]; [5; 6; 7; 8]; [9; 10; 11; 12]; [13; 14; 15; 16]]%Z = Ok v /\
    Forall2
      (fun rc x =>
         ([[1; 2; 3; 4]; [5; 6; 7; 8]; [9; 10; 11; 12]; [13; 14; 15; 16]]%Z
            !! rc.1 ≫= fun row => row !! rc.2) = Some x)
      (qa_positions 2) v /\
    Forall (fun rc : nat * nat => rc.1 < rc.2 < 2 * 2) (qa_positions 2) /\
    length v = length (triu_indices 2) * length (triu_indices 2).
Proof.
  apply (qa_simplify_matrix_keeps_upper_blocks 2
           [[1; 2; 3; 4]; [5; 6; 7; 8]; [9; 10; 11; 12]; [13; 14; 15; 16]]%Z).
  - simpl. lia.
  - repeat constructor.
Defined.

(** ** The range of the normalized values *)

Lemma np_max_Q_bounds (xs : list Q) (m : Q) (mean std : list Q -> Q) (cast : Q -> Q) :
  np_max (H := Q_float mean std cast) (Qabs <$> xs) = Ok m ->
  (0 <= m)%Q /\ Forall (fun x => (- m <= x <= m)%Q) xs.
Proof.
  unfold np_max. intros Em.
  destruct xs as [|x xs]; [discriminate Em|].
  cbn [fmap list_fmap f_max Q_float] in Em. injection Em as <-.
  destruct (foldl_Qmax_ge (Qabs <$> xs) (Qabs x)) as [H1 H2].
  split.
  - eapply Qle_trans; [apply Qabs_nonneg | exact H1].
  - constructor.
    + by apply Qabs_Qle_condition.
    + apply Forall_forall. intros y Hy. apply Qabs_Qle_condition.
      apply (proj1 (Forall_forall _ _) H2). by apply list_elem_of_fmap_2.
Qed.

Lemma rescale_in_unit_interval (m x : Q) :
  (0 <= m)%Q -> ~ (m == 0)%Q -> (- m <= x <= m)%Q ->
  (0 <= (x / m + 1) / 2 <= 1)%Q.
Proof.
  intros Hm0 Hm [Hlo Hhi].
  assert (0 < m)%Q as Hpos.
  { apply Qle_lteq in Hm0 as [Hlt|Heq]; [done|]. exfalso. apply Hm. by symmetry. }
  assert (-1 <= x / m)%Q as H1.
  { apply Qle_shift_div_l; [done|]. lra. }
  assert (x / m <= 1)%Q as H2.
  { apply Qle_shift_div_r; [done|]. lra. }
  split.
  - apply Qle_shift_div_l; [reflexivity|]. lra.
  - apply Qle_shift_div_r; [reflexivity|]. lra.
Qed.

Lemma scaled_within_multiplier (m x k : Q) :
  (0 <= m)%Q -> ~ (m == 0)%Q -> (- m <= x <= m)%Q ->
  (Qabs (x / m * k) <= Qabs k)%Q.
Proof.
  intros Hm0 Hm [Hlo Hhi].
  assert (0 < m)%Q as Hpos.
  { apply Qle_lteq in Hm0 as [Hlt|Heq]; [done|]. exfalso. apply Hm. by symmetry. }
  assert (Qabs (x / m) <= 1)%Q as H1.
  { apply Qabs_Qle_condition. split.
    - apply Qle_shift_div_l; [done|]. lra.
    - apply Qle_shift_div_r; [done|]. lra. }
  rewrite Qabs_Qmult.
  assert (Qabs (x / m) * Qabs k <= 1 * Qabs k)%Q as H2.
  { apply Qmult_le_compat_r; [exact H1 | apply Qabs_nonneg]. }
  lra.
Qed.

(** With the max-abs policy and a batch whose largest absolute value is not
    zero, every value of the normalized batch lies in [[0, 1]]. *)
Theorem max_abs_rescale_range (mean std : list Q -> Q) (cast : Q -> Q)
    (cfg : config) (batch : list (list (list Q))) (m : Q) :
  no_norm cfg = false -> norm_data cfg = true ->
  np_max (H := Q_float mean std cast) (Qabs <$> flat3 batch) = Ok m ->
  ~ (m == 0)%Q ->
  exists out,
    normalize (H := Q_float mean std cast) cfg batch = Ok out /\
    Forall (fun y => (0 <= y <= 1)%Q) (flat3 out).
Proof.
  intros Hnn Hnd Em Hm.
  destruct (np_max_Q_bounds _ _ _ _ _ Em) as [Hm0 Hb].
  unfold normalize. rewrite Hnn, Hnd. cbn [negb].
  cbn [f_abs Q_float] in *. rewrite Em, bind_ret_l.
  eexists. split; [reflexivity|]. cbn [f_div f_add f_one f_two Q_float].
  rewrite map3_map3, flat3_map3. apply Forall_fmap.
  eapply Forall_impl; [exact Hb|]. intros x Hx. cbn.
  by apply rescale_in_unit_interval.
Qed.

Lemma max_abs_rescale_range_witness :
  exists out,
    normalize (H := example_float)
      {| no_norm := false; norm_data := true; qubo_size := 2;
         scramble_qubos := false |} [[[1; -4]; [2; 0]]]%Q = Ok out /\
    Forall (fun y => (0 <= y <= 1)%Q) (flat3 out).
Proof.
  apply (max_abs_rescale_range (fun _ => 0%Q) (fun _ => 1%Q) (fun x => x)
           {| no_norm := false; norm_data := true; qubo_size := 2;
              scramble_qubos := false |} [[[1; -4]; [2; 0]]]%Q 4%Q).
  - reflexivity.
  - reflexivity.
  - vm_compute. reflexivity.
  - intros E. vm_compute in E. discriminate E.
Defined.

Lemma lengths_map_rows {A : Type} (f : A -> A) (a : list (list A)) :
  (length <$> map (map f) a) = (length <$> a).
Proof.
  induction a as [|row a IH]; [done|].
  cbn [map fmap list_fmap]. rewrite length_map. f_equal. exact IH.
Qed.

Lemma concat_map_rows_Q (f : Q -> Q) (a : list (list Q)) :
  concat (map (map f) a) = f <$> concat a.
Proof. apply concat_map_rows. Qed.

(** The padded targets, normalized (lines 362-370): with
    [use_norm_multiply] every value has an absolute value of at most
    [|norm_multiply|]; without it every value lies in [[0, 1]].  Both
    need a largest absolute value that is not zero. *)
Theorem normalize_targets_range (mean std : list Q -> Q) (cast : Q -> Q)
    (use_norm_multiply : bool) (norm_multiply : Q)
    (all_problems_flat : list (list Q)) (m : Q) :
  np_max (H := Q_float mean std cast) (Qabs <$> concat all_problems_flat) = Ok m ->
  ~ (m == 0)%Q ->
  exists out,
    normalize_targets (H := Q_float mean std cast) Qmult false use_norm_multiply
      norm_multiply all_problems_flat = Ok out /\
    (length <$> out) = (length <$> all_problems_flat) /\
    (use_norm_multiply = true ->
     Forall (fun y => (Qabs y <= Qabs norm_multiply)%Q) (concat out)) /\
    (use_norm_multiply = false ->
     Forall (fun y => (0 <= y <= 1)%Q) (concat out)).
Proof.
  intros Em Hm.
  destruct (np_max_Q_bounds _ _ _ _ _ Em) as [Hm0 Hb].
  unfold normalize_targets. cbn [negb f_abs f_div f_add f_one f_two Q_float] in *.
  destruct use_norm_multiply.
  - rewrite Em, bind_ret_l. eexists. split; [reflexivity|]. split_and!.
    + by rewrite !lengths_map_rows.
    + intros _. rewrite !concat_map_rows_Q, <- list_fmap_compose.
      apply Forall_fmap. eapply Forall_impl; [exact Hb|]. intros x Hx. cbn.
      by apply scaled_within_multiplier.
    + discriminate.
  - rewrite Em, bind_ret_l. eexists. split; [reflexivity|]. split_and!.
    + by rewrite !lengths_map_rows.
    + discriminate.
    + intros _. rewrite !concat_map_rows_Q, <- list_fmap_compose.
      apply Forall_fmap. eapply Forall_impl; [exact Hb|]. intros x Hx. cbn.
      by apply rescale_in_unit_interval.
Qed.

Lemma normalize_targets_range_witness :
  exists out,
    normalize_targets (H := example_float) Qmult false true 10%Q
      [[1; -4]; [2; 0]]%Q = Ok out /\
    (length <$> out) = (length <$> [[1; -4]; [2; 0]]%Q) /\
    (true = true -> Forall (fun y => (Qabs y <= Qabs 10)%Q) (concat out)) /\
    (true = false -> Forall (fun y => (0 <= y <= 1)%Q) (concat out)).
Proof.
  apply (normalize_targets_range (fun _ => 0%Q) (fun _ => 1%Q) (fun x => x)
           true 10%Q [[1; -4]; [2; 0]]%Q 4%Q).
  - vm_compute. reflexivity.
  - intros E. vm_compute in E. discriminate E.
Defined.

(** ** The clause customizers, continued *)

Lemma Zsum_Permutation (l l' : list Z) : l ≡ₚ l' -> Zsum l = Zsum l'.
Proof.
  induction 1 as [|x l l' _ IH|x y l|l l' l'' _ IH1 _ IH2];
    rewrite ?Zsum_cons; lia.
Qed.

Lemma square_ext (q : nat) (m m' : list (list Z)) :
  square q m -> square q m' ->
  (forall r c, entry2 m r c = entry2 m' r c) -> m = m'.
Proof.
  intros Hm Hm' He. apply list_eq. intros r.
  destruct (m !! r) as [row|] eqn:Er.
  - apply lookup_lt_Some in Er as Hr. destruct Hm as [Lm Fm].
    destruct (lookup_lt_is_Some_2 m' r) as [row' Er'];
      [destruct Hm' as [-> _]; lia|].
    rewrite Er'. f_equal. apply list_eq. intros c.
    pose proof (proj1 (Forall_lookup _ _) Fm _ _ Er) as Lr.
    pose proof (square_lookup _ _ _ _ Hm' Er') as Lr'. cbn in Lr.
    specialize (He r c). unfold entry2 in He. rewrite Er, Er' in He. cbn in He.
    destruct (row !! c) as [e|] eqn:Ec.
    + apply lookup_lt_Some in Ec as Hc.
      destruct (lookup_lt_is_Some_2 row' c) as [e' Ec']; [lia|].
      rewrite Ec' in He |- *. cbn in He. by subst.
    + apply lookup_ge_None in Ec. symmetry. apply lookup_ge_None. lia.
  - apply lookup_ge_None in Er. symmetry. apply lookup_ge_None.
    destruct Hm as [Lm _], Hm' as [Lm' _]. lia.
Qed.

Lemma hits2_sym (v0 v1 : Z) (r c : nat) : hits2 v0 v1 r c = hits2 v0 v1 c r.
Proof. unfold hits2. repeat case_decide; lia. Qed.

Lemma spec_m2sat_entry_sym (clauses : list clause2) (r c : nat) :
  spec_m2sat_entry clauses r c = spec_m2sat_entry clauses c r.
Proof.
  unfold spec_m2sat_entry. induction clauses as [|cl clauses IH]; [done|].
  rewrite !fmap_cons, !Zsum_cons, IH, hits2_sym. reflexivity.
Qed.

Lemma m2sat_cell_sym (clauses : list clause2) (r c : nat) :
  forall e : Z, m2sat_cell clauses r c e = m2sat_cell clauses c r e.
Proof.
  induction clauses as [|cl clauses IH]; intros e; [done|].
  by rewrite !m2sat_cell_cons, IH, hits2_sym.
Qed.

(** The M2SAT target is a symmetric matrix. *)
Theorem m2sat_target_symmetric (q : nat) (clauses : list clause2) :
  Forall (in_range2 q) clauses ->
  exists m,
    m2sat_new_p q clauses = Ok [m] /\
    forall r c, entry2 m r c = entry2 m c r.
Proof.
  intros Hcl.
  destruct (m2sat_loop q clauses _ (square_zeros q) Hcl) as (m & E & Hm & He).
  exists m. split; [done|].
  intros r c. by rewrite !He, !entry2_zeros, m2sat_cell_sym.
Qed.

Lemma m2sat_target_symmetric_witness :
  exists m,
    m2sat_new_p 3 [((0, true), (2, false)); ((2, false), (1, false))]%Z = Ok [m] /\
    forall r c, entry2 m r c = entry2 m c r.
Proof.
  apply (m2sat_target_symmetric 3).
  repeat constructor; cbn; lia.
Defined.

(** The M2SAT target of up to [2 ^ 22] clauses, whose additions are all
    exact, does not depend on the order of the clauses. *)
Theorem m2sat_target_ignores_clause_order (q : nat) (clauses clauses' : list clause2) :
  Forall (in_range2 q) clauses -> clauses ≡ₚ clauses' ->
  (4 * Z.of_nat (length clauses) <= 2 ^ 24)%Z ->
  m2sat_new_p q clauses = m2sat_new_p q clauses'.
Proof.
  intros Hcl Hp Hb.
  assert (Forall (in_range2 q) clauses') as Hcl' by by rewrite <- Hp.
  assert (4 * Z.of_nat (length clauses') <= 2 ^ 24)%Z as Hb'.
  { by rewrite <- (Permutation_length Hp). }
  destruct (m2sat_loop q clauses _ (square_zeros q) Hcl) as (m & E & Hm & He).
  destruct (m2sat_loop q clauses' _ (square_zeros q) Hcl') as (m' & E' & Hm' & He').
  unfold m2sat_new_p. rewrite E, E'. do 2 f_equal.
  apply (square_ext q); [done..|].
  intros r c. rewrite He, He', entry2_zeros, !m2sat_cell_exact by lia. f_equal.
  unfold spec_m2sat_entry. apply Zsum_Permutation. by apply fmap_Permutation.
Qed.

Lemma m2sat_target_ignores_clause_order_witness :
  m2sat_new_p 3 [((0, true), (2, false)); ((2, false), (1, false))]%Z
  = m2sat_new_p 3 [((2, false), (1, false)); ((0, true), (2, false))]%Z.
Proof.
  apply (m2sat_target_ignores_clause_order 3).
  - repeat constructor; cbn; lia.
  - apply perm_swap.
  - cbn. lia.
Defined.

Lemma ind3_swap12 (a b c : Z) (x y z : nat) :
  (if decide (Z.of_nat y = a /\ Z.of_nat x = b /\ Z.of_nat z = c) then 1 else 0)%Z
  = (if decide (Z.of_nat x = b /\ Z.of_nat y = a /\ Z.of_nat z = c) then 1 else 0)%Z.
Proof. repeat case_decide; tauto || lia. Qed.

Lemma ind3_swap23 (a b c : Z) (x y z : nat) :
  (if decide (Z.of_nat x = a /\ Z.of_nat z = b /\ Z.of_nat y = c) then 1 else 0)%Z
  = (if decide (Z.of_nat x = a /\ Z.of_nat y = c /\ Z.of_nat z = b) then 1 else 0)%Z.
Proof. repeat case_decide; tauto || lia. Qed.

Lemma hits3_swap12 (v0 v1 v2 : Z) (x y z : nat) :
  hits3 v0 v1 v2 y x z = hits3 v0 v1 v2 x y z.
Proof.
  unfold hits3, Zsum. cbn [fmap list_fmap foldr fst snd].
  rewrite !(ind3_swap12 _ _ _ x y z). lia.
Qed.

Lemma hits3_swap23 (v0 v1 v2 : Z) (x y z : nat) :
  hits3 v0 v1 v2 x z y = hits3 v0 v1 v2 x y z.
Proof.
  unfold hits3, Zsum. cbn [fmap list_fmap foldr fst snd].
  rewrite !(ind3_swap23 _ _ _ x y z). lia.
Qed.

Lemma m3sat_cell_sym (clauses : list clause3) (x y z : nat) :
  forall e : Z,
    m3sat_cell clauses y x z e = m3sat_cell clauses x y z e /\
    m3sat_cell clauses x z y e = m3sat_cell clauses x y z e.
Proof.
  induction clauses as [|cl clauses IH]; intros e; [done|].
  rewrite !m3sat_cell_cons, hits3_swap12, hits3_swap23. apply IH.
Qed.

(** The M3SAT target is symmetric under every exchange of two coordinates
    (the exchanges of the first two and of the last two generate all). *)
Theorem m3sat_target_symmetric (q : nat) (clauses : list clause3) :
  Forall (in_range3 q) clauses ->
  exists t,
    m3sat_new_p q clauses = Ok [t] /\
    forall x y z,
      entry3 t y x z = entry3 t x y z /\ entry3 t x z y = entry3 t x y z.
Proof.
  intros Hcl.
  destruct (m3sat_loop q clauses _ None (cube_zeros q) Hcl)
    as (t & value & E & Ht & He).
  exists t. split; [unfold m3sat_new_p; by rewrite E|].
  intros x y z. rewrite !He, !entry3_zeros. apply m3sat_cell_sym.
Qed.

Lemma m3sat_target_symmetric_witness :
  exists t,
    m3sat_new_p 3 [((0, true), (0, false), (2, false));
                   ((2, false), (1, true), (0, true))]%Z = Ok [t] /\
    forall x y z,
      entry3 t y x z = entry3 t x y z /\ entry3 t x z y = entry3 t x y z.
Proof.
  apply (m3sat_target_symmetric 3).
  repeat constructor; cbn; lia.
Defined.

(** *** Indices out of range and negative indices *)

Lemma np_index_out (len : nat) (i : Z) :
  ~ index_ok len i -> np_index len i = Raise IndexError.
Proof.
  unfold index_ok, np_index. intros Hi.
  rewrite decide_False by lia. by rewrite decide_False by lia.
Qed.

Lemma np_index_wrap (len : nat) (i : Z) :
  index_ok len i ->
  np_index len i = Ok (Z.to_nat (i mod Z.of_nat len)) /\
  Z.to_nat (i mod Z.of_nat len) < len.
Proof.
  unfold index_ok, np_index. intros Hi.
  destruct (decide (0 <= i < Z.of_nat len)%Z) as [Hp|Hn].
  - rewrite Z.mod_small by done. split; [done | lia].
  - rewrite decide_True by lia.
    assert (i mod Z.of_nat len = i + Z.of_nat len)%Z as ->.
    { symmetry. apply (Z.mod_unique _ _ (-1)); lia. }
    split; [done | lia].
Qed.

Lemma np_update_alter_at {A : Type} (g : A -> A) (f : A -> result A)
    (a : list A) (i : Z) (k : nat) :
  np_index (length a) i = Ok k -> k < length a ->
  (forall x, a !! k = Some x -> f x = Ok (g x)) ->
  np_update f a i = Ok (alter g k a).
Proof.
  intros Ei Hk Hf. unfold np_update. rewrite Ei, bind_ret_l.
  destruct (lookup_lt_is_Some_2 a k Hk) as [x Ex].
  rewrite (getitem_lookup _ _ _ Ex), bind_ret_l, (Hf x Ex), bind_ret_l.
  f_equal. apply list_eq. intros j.
  destruct (decide (j = k)) as [->|Hj].
  - rewrite list_lookup_insert_eq by lia.
    by rewrite list_lookup_alter_eq, Ex.
  - by rewrite list_lookup_insert_ne, list_lookup_alter_ne.
Qed.

Lemma np_update_raise {A : Type} (f : A -> result A) (a : list A) (i : Z)
    (k : nat) (x : A) (e : exn) :
  np_index (length a) i = Ok k -> a !! k = Some x -> f x = Raise e ->
  np_update f a i = Raise e.
Proof.
  intros Ei Ex Ef. unfold np_update.
  by rewrite Ei, bind_ret_l, (getitem_lookup _ _ _ Ex), bind_ret_l, Ef.
Qed.

Lemma np_update_out {A : Type} (f : A -> result A) (a : list A) (i : Z) :
  ~ index_ok (length a) i -> np_update f a i = Raise IndexError.
Proof. intros Hi. unfold np_update. by rewrite np_index_out. Qed.

(** [new_p[0][x][y] += value] with indices that may be negative. *)
Lemma iadd_0xy_wrap (q : nat) (m : list (list Z)) (x y value : Z) :
  square q m -> index_ok q x -> index_ok q y ->
  iadd_0xy [m] x y value
    = Ok [add2 value (Z.to_nat (x mod Z.of_nat q)) (Z.to_nat (y mod Z.of_nat q)) m].
Proof.
  intros Hm Hx Hy. unfold iadd_0xy.
  destruct (np_index_wrap q x Hx) as [Ex Lx].
  destruct (np_index_wrap q y Hy) as [Ey Ly].
  rewrite (np_update_alter_at
             (add2 value (Z.to_nat (x mod Z.of_nat q)) (Z.to_nat (y mod Z.of_nat q)))
             _ _ _ 0); [done | done | cbn; lia |].
  intros m' [= <-]. destruct Hm as [Lm Fm].
  apply np_update_alter_at; [by rewrite Lm | lia |].
  intros row Er. pose proof (proj1 (Forall_lookup _ _) Fm _ _ Er) as Lr. cbn in Lr.
  apply np_update_alter_at; [by rewrite Lr | lia | done].
Qed.

Lemma iadd_0xy_out (q : nat) (m : list (list Z)) (x y value : Z) :
  square q m -> ~ index_ok q x \/ ~ index_ok q y ->
  iadd_0xy [m] x y value = Raise IndexError.
Proof.
  intros [Lm Fm] Hout. unfold iadd_0xy.
  eapply (np_update_raise _ _ _ 0 m); [done | done |].
  destruct (decide (index_ok q x)) as [Hx|Hx].
  - destruct Hout as [?|Hy]; [done|].
    destruct (np_index_wrap q x Hx) as [Ex Lx].
    destruct (lookup_lt_is_Some_2 m (Z.to_nat (x mod Z.of_nat q))) as [row Er];
      [lia|].
    eapply np_update_raise; [by rewrite Lm | exact Er |].
    apply np_update_out.
    by rewrite (proj1 (Forall_lookup _ _) Fm _ _ Er).
  - apply np_update_out. by rewrite Lm.
Qed.

Lemma m2sat_clause_wrap (q : nat) (m : list (list Z)) (cl : clause2) :
  square q m -> index_ok q cl.1.1 -> index_ok q cl.2.1 ->
  m2sat_clause [m] cl =
    Ok [add2 (spec_m2sat_contribution cl.1.2 cl.2.2)
          (Z.to_nat (cl.2.1 mod Z.of_nat q)) (Z.to_nat (cl.1.1 mod Z.of_nat q))
          (add2 (spec_m2sat_contribution cl.1.2 cl.2.2)
             (Z.to_nat (cl.1.1 mod Z.of_nat q)) (Z.to_nat (cl.2.1 mod Z.of_nat q)) m)].
Proof.
  destruct cl as [[v0 p0] [v1 p1]]. cbn [fst snd]. intros Hm H0 H1.
  unfold m2sat_clause, m2sat_branch.
  destruct p0, p1; cbn [fst snd andb negb spec_m2sat_contribution];
    rewrite ?bind_ret_l;
    rewrite (iadd_0xy_wrap q) by done; rewrite bind_ret_l;
    rewrite (iadd_0xy_wrap q) by (done || by apply square_add2);
    reflexivity.
Qed.

Lemma m2sat_clause_out (q : nat) (m : list (list Z)) (cl : clause2) :
  square q m -> ~ index_ok q cl.1.1 \/ ~ index_ok q cl.2.1 ->
  m2sat_clause [m] cl = Raise IndexError.
Proof.
  destruct cl as [[v0 p0] [v1 p1]]. cbn [fst snd]. intros Hm Hout.
  unfold m2sat_clause, m2sat_branch.
  destruct p0, p1; cbn [fst snd andb negb];
    rewrite ?bind_ret_l; rewrite (iadd_0xy_out q) by done; reflexivity.
Qed.

Lemma wrap_clause2_in_range (q : nat) (cl : clause2) :
  index_ok q cl.1.1 -> index_ok q cl.2.1 -> in_range2 q (wrap_clause2 q cl).
Proof.
  unfold index_ok, in_range2, wrap_clause2. cbn [fst snd]. intros H0 H1.
  split; apply Z.mod_pos_bound; lia.
Qed.

(** A variable index in [[-q, q)] is taken modulo [q]: negative indices
    count from the end of the axis, as NumPy does, and give the same target
    as their non-negative counterparts. *)
Theorem m2sat_negative_indices_wrap (q : nat) (clauses : list clause2) :
  Forall (fun cl => index_ok q cl.1.1 /\ index_ok q cl.2.1) clauses ->
  m2sat_new_p q clauses = m2sat_new_p q (wrap_clause2 q <$> clauses).
Proof.
  unfold m2sat_new_p. generalize (square_zeros q).
  generalize (replicate q (replicate q 0%Z)). intros m Hm Hcl. revert m Hm.
  induction Hcl as [|cl clauses [H0 H1] _ IH]; intros m Hm; [done|].
  rewrite fmap_cons. cbn [for_in].
  rewrite (m2sat_clause_wrap q) by done.
  rewrite (m2sat_clause_Ok q) by (done || by apply wrap_clause2_in_range).
  rewrite !bind_ret_l. cbn [wrap_clause2 fst snd].
  apply IH. by do 2 apply square_add2.
Qed.

Lemma m2sat_negative_indices_wrap_witness :
  m2sat_new_p 3 [((-1, true), (0, false)); ((2, false), (-3, false))]%Z
  = m2sat_new_p 3
      (wrap_clause2 3 <$> [((-1, true), (0, false)); ((2, false), (-3, false))]%Z).
Proof.
  apply (m2sat_negative_indices_wrap 3).
  repeat constructor; cbn; lia.
Defined.

(** A clause with a variable index outside [[-q, q)] makes the M2SAT
    customizer raise [IndexError] (here after clauses that are in range). *)
Theorem m2sat_index_out_of_range_raises (q : nat) (pre post : list clause2)
    (cl : clause2) :
  Forall (in_range2 q) pre ->
  ~ index_ok q cl.1.1 \/ ~ index_ok q cl.2.1 ->
  m2sat_new_p q (pre ++ cl :: post) = Raise IndexError /\
  gen_apply_m2sat_customization q [pre ++ cl :: post] = Raise IndexError.
Proof.
  intros Hpre Hout.
  assert (m2sat_new_p q (pre ++ cl :: post) = Raise IndexError) as E.
  { unfold m2sat_new_p. rewrite for_in_app.
    destruct (m2sat_loop q pre _ (square_zeros q) Hpre) as (m & E & Hm & _).
    rewrite E, bind_ret_l. cbn [for_in].
    by rewrite (m2sat_clause_out q). }
  split; [done|]. unfold gen_apply_m2sat_customization. cbn [mapM].
  by rewrite E.
Qed.

Lemma m2sat_index_out_of_range_raises_witness :
  m2sat_new_p 3 ([((0, true), (1, true))] ++ ((3, true), (0, false)) :: [])%Z
    = Raise IndexError /\
  gen_apply_m2sat_customization 3
    [([((0, true), (1, true))] ++ ((3, true), (0, false)) :: [])%Z]
    = Raise IndexError.
Proof.
  apply (m2sat_index_out_of_range_raises 3 [((0, true), (1, true))%Z] []
           ((3, true), (0, false))%Z).
  - repeat constructor; cbn; lia.
  - left. unfold index_ok. cbn. lia.
Defined.

(** *** The length of the flattened targets *)

Lemma np_update_fmap {A S : Type} (sh : A -> S) (f : A -> result A)
    (a a' : list A) (i : Z) :
  (forall x y, f x = Ok y -> sh y = sh x) ->
  np_update f a i = Ok a' -> sh <$> a' = sh <$> a.
Proof.
  intros Hf E. unfold np_update in E.
  apply bind_Ok in E as (k & Ek & E).
  apply bind_Ok in E as (x & Ex & E).
  apply bind_Ok in E as (y & Ey & E). injection E as <-.
  apply getitem_Ok in Ex.
  rewrite list_fmap_insert. apply list_insert_id.
  rewrite list_lookup_fmap, Ex. cbn. f_equal. symmetry. by apply Hf.
Qed.

Lemma np_update_length {A : Type} (f : A -> result A) (a a' : list A) (i : Z) :
  np_update f a i = Ok a' -> length a' = length a.
Proof.
  intros E. apply (np_update_fmap (fun _ => tt)) in E; [|done].
  by rewrite <- (length_fmap (fun _ => tt) a'), E, length_fmap.
Qed.

Lemma iadd_0xy_shape (new_p new_p' : list (list (list Z))) (x y value : Z) :
  iadd_0xy new_p x y value = Ok new_p' ->
  (map length <$> new_p') = (map length <$> new_p).
Proof.
  unfold iadd_0xy. apply np_update_fmap. intros m m'.
  apply np_update_fmap. intros row row'. apply np_update_length.
Qed.

Lemma iadd_0xyz_shape (new_p new_p' : list (list (list (list Z)))) (x y z value : Z) :
  iadd_0xyz new_p x y z value = Ok new_p' ->
  (map (map length) <$> new_p') = (map (map length) <$> new_p).
Proof.
  unfold iadd_0xyz. apply np_update_fmap. intros t t'.
  apply np_update_fmap. intros m m'.
  apply np_update_fmap. intros row row'. apply np_update_length.
Qed.

Lemma m2sat_clause_shape (new_p new_p' : list (list (list Z))) (cl : clause2) :
  m2sat_clause new_p cl = Ok new_p' ->
  (map length <$> new_p') = (map length <$> new_p).
Proof.
  assert (forall cond delta (a a' : list (list (list Z))),
            m2sat_branch cond delta cl a = Ok a' ->
            (map length <$> a') = (map length <$> a)) as Hb.
  { intros cond delta a a' E. unfold m2sat_branch in E.
    destruct cond; [|by injection E as <-].
    apply bind_Ok in E as (a1 & E1 & E2).
    apply iadd_0xy_shape in E1, E2. congruence. }
  unfold m2sat_clause. intros E.
  apply bind_Ok in E as (a1 & E1 & E).
  apply bind_Ok in E as (a2 & E2 & E).
  apply bind_Ok in E as (a3 & E3 & E4).
  apply Hb in E1, E2, E3, E4. congruence.
Qed.

Lemma m3sat_clause_shape (st st' : list (list (list (list Z))) * option Z)
    (cl : clause3) :
  m3sat_clause st cl = Ok st' ->
  (map (map length) <$> st'.1) = (map (map length) <$> st.1).
Proof.
  destruct st as [new_p value], cl as [[l0 l1] l2]. unfold m3sat_clause.
  destruct (m3sat_value _ _ _ value) as [v|]; [|discriminate].
  intros E. apply bind_Ok in E as (new_p' & Ep & E). injection E as <-. cbn [fst].
  revert Ep. generalize (permutations 3 [l0; l1; l2]). intros perms.
  revert new_p. induction perms as [|p perms IH]; intros new_p E; cbn [for_in] in E.
  - by injection E as <-.
  - apply bind_Ok in E as (new_p1 & E1 & E). apply IH in E. rewrite E. clear E.
    unfold m3sat_permutation in E1.
    apply bind_Ok in E1 as (p0 & _ & E1).
    apply bind_Ok in E1 as (p1 & _ & E1).
    apply bind_Ok in E1 as (p2 & _ & E1). by apply iadd_0xyz_shape in E1.
Qed.

Lemma length_concat_sum {A : Type} (ls : list (list A)) :
  length (concat ls) = sum_list (length <$> ls).
Proof.
  induction ls as [|l ls IH]; [done|].
  cbn [concat fmap list_fmap sum_list sum_list_with].
  rewrite length_app, IH. reflexivity.
Qed.

Lemma sum_list_concat_replicate (k q : nat) :
  sum_list (concat (replicate k (replicate q q))) = k * (q * q).
Proof.
  induction k as [|k IH]; [done|].
  cbn [replicate concat]. rewrite sum_list_with_app, sum_list_replicate, IH. lia.
Qed.

(** Whenever the customizers return, every replaced field has
    [qubo_size ** 2] items (M2SAT) or [qubo_size ** 3] items (M3SAT),
    whatever the clauses are. *)
Theorem customized_targets_have_fixed_length (q : nat) :
  (forall (all_clauses : list (list clause2)) (targets : list (list Z)),
     gen_apply_m2sat_customization q all_clauses = Ok targets ->
     length targets = length all_clauses /\
     Forall (fun v => length v = q * q) targets) /\
  (forall (all_clauses : list (list clause3)) (targets : list (list Z)),
     gen_apply_m3sat_customization q all_clauses = Ok targets ->
     length targets = length all_clauses /\
     Forall (fun v => length v = q * q * q) targets).
Proof.
  split; intros all_clauses targets E; apply mapM_result_Ok in E;
    (split; [symmetry; by eapply Forall2_length|]);
    apply Forall_forall; intros v Hv;
    apply list_elem_of_lookup in Hv as [i Hv];
    destruct (Forall2_lookup_r _ _ _ _ _ E Hv) as (clauses & _ & Ec);
    cbn beta in Ec; apply bind_Ok in Ec as (a & Ea & Ec); injection Ec as <-.
  - unfold m2sat_new_p in Ea.
    eapply (for_in_invariant
              (fun new_p : list (list (list Z)) =>
                 (map length <$> new_p) = [replicate q q])) in Ea.
    + destruct a as [|m [|? ?]]; try discriminate Ea.
      injection Ea as Ea. cbn [concat]. rewrite app_nil_r.
      rewrite length_concat_sum.
      change (length <$> m) with (map length m).
      by rewrite Ea, sum_list_replicate.
    + intros s cl s' Hs Es. apply m2sat_clause_shape in Es. congruence.
    + cbn. by rewrite fmap_replicate, length_replicate.
  - unfold m3sat_new_p in Ea.
    apply bind_Ok in Ea as (a0 & Ea0 & Ea). injection Ea as <-.
    eapply (for_in_invariant
              (fun st : list (list (list (list Z))) * option Z =>
                 (map (map length) <$> st.1) = [replicate q (replicate q q)]))
      in Ea0.
    + destruct a0 as [[|t [|? ?]] value]; try discriminate Ea0.
      injection Ea0 as Ea0. cbn [fst concat]. rewrite app_nil_r.
      rewrite length_concat_sum.
      assert ((length <$> concat t) = concat (map length <$> t)) as ->.
      { clear. induction t as [|m t IH]; [done|].
        cbn [concat fmap list_fmap]. by rewrite fmap_app, IH. }
      change (map length <$> t) with (map (map length) t).
      rewrite Ea0. rewrite sum_list_concat_replicate. lia.
    + intros s cl s' Hs Es. apply m3sat_clause_shape in Es. congruence.
    + cbn. by rewrite !fmap_replicate, !length_replicate.
Qed.

Lemma customized_targets_have_fixed_length_witness :
  length [[0; -1; -1; 0]%Z] = length [[((1, true), (-2, false))%Z]] /\
  Forall (fun v => length v = 2 * 2) [[0; -1; -1; 0]%Z].
Proof.
  apply (proj1 (customized_targets_have_fixed_length 2)
           [[((1, true), (-2, false))%Z]] [[0; -1; -1; 0]%Z]).
  reflexivity.
Defined.

(** ** The flattener, continued *)

Lemma mapM_result_all_Ok {A B : Type} (f : A -> result B) (l : list A) :
  Forall (fun x => exists y, f x = Ok y) l -> exists k, mapM f l = Ok k.
Proof.
  induction 1 as [|x l [y Ey] _ [k Ek]]; [by exists []|].
  exists (y :: k). by rewrite mapM_result_cons, Ey, bind_ret_l, Ek.
Qed.

Lemma mapM_result_raise {A B : Type} (f : A -> result B) (l : list A) (e : exn) :
  (forall x e', f x = Raise e' -> e' = e) ->
  Exists (fun x => exists e', f x = Raise e') l ->
  mapM f l = Raise e.
Proof.
  intros Hf. induction 1 as [x l [e' Ee]|x l _ IH].
  - rewrite mapM_result_cons, Ee. cbn. f_equal. by eapply Hf.
  - rewrite mapM_result_cons, IH. destruct (f x) as [y|e'] eqn:Ef; [done|].
    cbn. f_equal. by eapply Hf.
Qed.

Lemma length_concat_rows {A B C : Type} (f : A -> B -> C) (l : list A) (k : list B) :
  length (concat ((fun u => f u <$> k) <$> l)) = length l * length k.
Proof.
  induction l as [|u l IH]; [done|].
  rewrite fmap_cons. cbn [concat length].
  rewrite length_app, length_fmap, IH. lia.
Qed.

Lemma length_concat_pairs {A B : Type} (f g : A -> B) (l : list A) :
  length (concat ((fun e => [f e; g e]) <$> l)) = 2 * length l.
Proof.
  induction l as [|e l IH]; [done|].
  rewrite fmap_cons. cbn [concat length app]. rewrite IH. lia.
Qed.

Section FlattenMore.
Context {F : Type} (float_of_int : Z -> F).
Implicit Types (part v : pyval (F := F)).

Lemma py_iter_raises_TypeError v (e : exn) : py_iter v = Raise e -> e = TypeError.
Proof. destruct v; cbn; congruence. Qed.

(** A graph field never raises: it contributes two numbers per edge in
    edge mode and the [len(nodes) ** 2] entries of the adjacency matrix
    otherwise. *)
Theorem flatten_graph_field_length (gen_edges : bool) (g : graph) :
  exists out,
    flatten_part float_of_int gen_edges (PyGraph g) = Ok out /\
    length out =
      if gen_edges then 2 * length (edges g)
      else length (nodes g) * length (nodes g).
Proof.
  eexists. split; [reflexivity|]. destruct gen_edges.
  - unfold edges_flat, sorted_edges. rewrite length_concat_pairs.
    f_equal. apply Permutation_length, merge_sort_Permutation.
  - unfold adjacency_flat. apply length_concat_rows.
Qed.

(** A nested field whose first item is an empty sequence raises
    [IndexError] (the dispatch reads [part[0][0]]); a nested field of
    depth two with a number among its items raises [TypeError] (a number
    cannot be iterated). *)
Theorem flatten_nested_field_errors (gen_edges : bool) part
    (x : pyval) (rest : list pyval) :
  sequence_items part = Some (x :: rest) ->
  (sequence_items x = Some [] ->
   flatten_part float_of_int gen_edges part = Raise IndexError) /\
  (forall y ys, sequence_items x = Some (y :: ys) -> is_tuple_list y = false ->
     Exists (fun v => py_scalar v = true) rest ->
     flatten_part float_of_int gen_edges part = Raise TypeError).
Proof.
  intros Ep.
  assert (is_list_tuple_ndarray x = true -> forall r,
            (part0 ← getitem (x :: rest) 0;
             if is_list_tuple_ndarray part0 then
               part00 ← subscript0 part0;
               flat_list ←
                 (if is_tuple_list part00 then flatten3 (x :: rest)
                  else flatten2 (x :: rest));
               flat_list ← mapM (py_float float_of_int) flat_list;
               Ok (PyFloat <$> flat_list)
             else Ok (x :: rest)) = r ->
            flatten_part float_of_int gen_edges part = r) as Hstep.
  { intros _ r <-. by destruct part; try discriminate Ep; injection Ep as ->. }
  split.
  - intros Ex. apply Hstep; [by destruct x|].
    cbn [getitem lookup list_lookup]. rewrite bind_ret_l.
    by destruct x; try discriminate Ex; injection Ex as ->.
  - intros y ys Ex Hy Hrest. apply Hstep; [by destruct x|].
    cbn [getitem lookup list_lookup]. rewrite bind_ret_l.
    assert (is_list_tuple_ndarray x = true) as -> by by destruct x.
    assert (subscript0 x = Ok y) as ->.
    { by destruct x; try discriminate Ex; injection Ex as ->. }
    rewrite bind_ret_l, Hy. unfold flatten2.
    rewrite (mapM_result_raise py_iter (x :: rest) TypeError); [done | |].
    + intros v e' E. by eapply py_iter_raises_TypeError.
    + apply Exists_cons_tl. eapply Exists_impl; [exact Hrest|].
      intros v Hv. exists TypeError. by destruct v.
Qed.

Lemma flatten_part_list_depth3 (gen_edges : bool) (l : list pyval) (x y : pyval) :
  l !! 0 = Some x -> is_list_tuple_ndarray x = true ->
  subscript0 x = Ok y -> is_tuple_list y = true ->
  flatten_part float_of_int gen_edges (PyList l) =
    flat_list ← flatten3 l;
    flat_list ← mapM (py_float float_of_int) flat_list;
    Ok (PyFloat <$> flat_list).
Proof.
  intros El Hx Ey Hy. cbn [flatten_part].
  rewrite (getitem_lookup _ _ _ El), bind_ret_l, Hx, Ey, bind_ret_l, Hy.
  reflexivity.
Qed.

Lemma clause2_items_float (clauses : list clause2) :
  Forall (fun cl : clause2 =>
            in_double_range cl.1.1 = true /\ in_double_range cl.2.1 = true)
    clauses ->
  mapM (py_float float_of_int)
    (concat ((fun cl : clause2 =>
                [PyInt cl.1.1; PyBool cl.1.2; PyInt cl.2.1; PyBool cl.2.2])
               <$> clauses))
  = Ok (concat (clause2_floats float_of_int <$> clauses)).
Proof.
  induction 1 as [|cl clauses [H0 H1] _ IH]; [done|].
  rewrite !fmap_cons. cbn [concat app].
  rewrite !mapM_result_cons, IH. cbn [py_float]. rewrite H0, H1. reflexivity.
Qed.

Lemma clause2_flatten3 (clauses : list clause2) :
  flatten3 ((fun cl : clause2 => PyTuple [py_literal cl.1; py_literal cl.2])
              <$> clauses)
  = Ok (concat ((fun cl : clause2 =>
                   [PyInt (F := F) cl.1.1; PyBool cl.1.2;
                    PyInt cl.2.1; PyBool cl.2.2])
                  <$> clauses)).
Proof.
  unfold flatten3.
  assert (mapM py_iter
            ((fun cl : clause2 =>
                PyTuple [py_literal (F := F) cl.1; py_literal cl.2]) <$> clauses)
          = Ok ((fun cl : clause2 => [py_literal cl.1; py_literal cl.2])
                  <$> clauses)) as ->.
  { induction clauses as [|cl clauses IH]; [done|].
    rewrite !fmap_cons, mapM_result_cons, IH. reflexivity. }
  rewrite bind_ret_l.
  assert (mapM (mapM py_iter)
            ((fun cl : clause2 =>
                [py_literal (F := F) cl.1; py_literal cl.2]) <$> clauses)
          = Ok ((fun cl : clause2 =>
                   [[PyInt cl.1.1; PyBool cl.1.2]; [PyInt cl.2.1; PyBool cl.2.2]])
                  <$> clauses)) as ->.
  { induction clauses as [|cl clauses IH]; [done|].
    rewrite !fmap_cons, mapM_result_cons, IH. reflexivity. }
  rewrite bind_ret_l. f_equal.
  induction clauses as [|cl clauses IH]; [done|].
  rewrite !fmap_cons. cbn [concat app]. by rewrite IH.
Qed.

(** The raw clause list of a 2-literal problem flattens to four floats
    per clause: variable, polarity as 0 or 1, variable, polarity.  A
    problem without clauses cannot be flattened. *)
Theorem flatten_clause_list (gen_edges : bool) (clauses : list clause2) :
  Forall (fun cl : clause2 =>
            in_double_range cl.1.1 = true /\ in_double_range cl.2.1 = true)
    clauses ->
  (clauses <> [] ->
   flatten_part float_of_int gen_edges (py_clauses2 clauses)
     = Ok (PyFloat <$> concat (clause2_floats float_of_int <$> clauses))) /\
  (clauses = [] ->
   flatten_part float_of_int gen_edges (py_clauses2 clauses) = Raise IndexError).
Proof.
  intros Hcl. split; [|by intros ->].
  intros Hne. destruct clauses as [|cl clauses]; [done|].
  unfold py_clauses2.
  rewrite (flatten_part_list_depth3 gen_edges _
             (PyTuple [py_literal cl.1; py_literal cl.2]) (py_literal cl.1));
    [|done..].
  rewrite clause2_flatten3, bind_ret_l, (clause2_items_float _ Hcl), bind_ret_l.
  reflexivity.
Qed.

(** Padding never fails on the flattener's own output when all flattened
    items are numbers: in particular the pad width is never negative. *)
Theorem pad_problems_returns_on_numbers (gen_edges : bool)
    (all_problems : list (list (problem (F := F))))
    (result : list (list pyval)) (output_size : nat) :
  flatten_problem_parameters float_of_int gen_edges all_problems
    = Ok (result, output_size) ->
  Forall (Forall (fun v => py_number v = true)) result ->
  exists padded,
    pad_problems float_of_int result output_size = Ok padded /\
    Forall (fun vec => length vec = output_size) padded.
Proof.
  intros Ef Hnum.
  apply flatten_problem_parameters_Ok in Ef as [_ ->].
  assert (exists padded,
            pad_problems float_of_int result (max_length result) = Ok padded)
    as [padded Ep].
  { unfold pad_problems. apply mapM_result_all_Ok.
    apply Forall_lookup. intros i raw Eraw.
    rewrite decide_True by by eapply max_length_lookup.
    unfold astype_float, np_pad. apply mapM_result_all_Ok.
    apply Forall_app. split.
    - eapply Forall_impl; [exact (proj1 (Forall_lookup _ _) Hnum _ _ Eraw)|].
      intros v Hv. destruct v; try discriminate Hv; cbn [py_float]; eauto.
      cbn in Hv. rewrite Hv. eauto.
    - apply Forall_replicate. cbn [py_float].
      rewrite in_double_range_0. eauto. }
  exists padded. split; [done|].
  apply mapM_result_Ok in Ep. apply Forall_lookup. intros i vec Evec.
  destruct (Forall2_lookup_r _ _ _ _ _ Ep Evec) as (raw & Eraw & E).
  cbn beta in E. case_decide; [|discriminate E].
  apply astype_float_length in E. rewrite E. unfold np_pad.
  rewrite length_app, length_replicate. lia.
Qed.

End FlattenMore.

Lemma flatten_graph_field_length_witness :
  exists out,
    flatten_part inject_Z true
      (PyGraph {| nodes := [0; 1; 2]; edges := [(1, 2); (0, 2); (0, 1)] |}%Z)
      = Ok out /\
    length out = 2 * 3.
Proof.
  apply (flatten_graph_field_length inject_Z true
           {| nodes := [0; 1; 2]; edges := [(1, 2); (0, 2); (0, 1)] |}%Z).
Defined.

Lemma flatten_nested_field_errors_witness :
  (sequence_items (PyList [PyInt (F := Q) 1; PyInt 2]) = Some [] ->
   flatten_part inject_Z false
     (PyList [PyList [PyInt 1; PyInt 2]; PyInt 3]) = Raise IndexError) /\
  (forall y ys,
     sequence_items (PyList [PyInt (F := Q) 1; PyInt 2]) = Some (y :: ys) ->
     is_tuple_list y = false ->
     Exists (fun v => py_scalar v = true) [PyInt (F := Q) 3] ->
     flatten_part inject_Z false
       (PyList [PyList [PyInt 1; PyInt 2]; PyInt 3]) = Raise TypeError).
Proof.
  apply (flatten_nested_field_errors inject_Z false
           (PyList [PyList [PyInt 1; PyInt 2]; PyInt 3])
           (PyList [PyInt 1; PyInt 2]) [PyInt 3]).
  reflexivity.
Defined.

Lemma flatten_clause_list_witness :
  ([((0, true), (2, false)); ((2, false), (1, false))]%Z <> [] ->
   flatten_part inject_Z false
     (py_clauses2 [((0, true), (2, false)); ((2, false), (1, false))]%Z)
   = Ok (PyFloat <$> concat (clause2_floats inject_Z
           <$> [((0, true), (2, false)); ((2, false), (1, false))]%Z))) /\
  ([((0, true), (2, false)); ((2, false), (1, false))]%Z = [] ->
   flatten_part inject_Z false
     (py_clauses2 [((0, true), (2, false)); ((2, false), (1, false))]%Z)
   = Raise IndexError).
Proof.
  apply (flatten_clause_list inject_Z false
           [((0, true), (2, false)); ((2, false), (1, false))]%Z).
  repeat constructor.
Defined.

Lemma pad_problems_returns_on_numbers_witness :
  exists padded,
    pad_problems inject_Z [[PyInt 1; PyInt 2; PyInt 3]; [PyInt 7]] 3 = Ok padded /\
    Forall (fun vec => length vec = 3) padded.
Proof.
  apply (pad_problems_returns_on_numbers inject_Z false example_instances
           [[PyInt 1; PyInt 2; PyInt 3]; [PyInt 7]] 3).
  - reflexivity.
  - repeat constructor.
Defined.

(** ** The configured classes *)

(** [_prep_problems] returns exactly when every configured name is in the
    registry, and then the classes of the names, in the order of the names;
    otherwise it raises, and the exception is a [KeyError]. *)
Theorem prep_problems_KeyError_iff_unknown_name {P R : Type}
    (registry : gmap string (problem_class P R)) (names : list string) :
  (forall problems,
     _prep_problems registry names = Ok problems <->
     Forall2 (fun name cls => registry !! name = Some cls) names problems) /\
  (forall e,
     _prep_problems registry names = Raise e <->
     e = KeyError /\ Exists (fun name => registry !! name = None) names).
Proof.
  unfold _prep_problems.
  induction names as [|name names [IHok IHraise]].
  - split.
    + intros problems. cbn. split.
      * intros [= <-]. constructor.
      * intros Hp. by apply Forall2_nil_inv_l in Hp as ->.
    + intros e. split; [discriminate|].
      intros [_ Hex]. by apply Exists_nil in Hex.
  - rewrite mapM_result_cons. destruct (registry !! name) as [cls|] eqn:Er.
    + rewrite bind_ret_l. split.
      * intros problems. split.
        -- intros E. apply bind_Ok in E as (k & Ek & E). injection E as <-.
           constructor; [done|]. by apply IHok.
        -- intros Hp.
           apply Forall2_cons_inv_l in Hp as (cls' & k & Ec & Hk & ->).
           apply IHok in Hk. rewrite Hk, bind_ret_l. congruence.
      * intros e. split.
        -- intros E.
           destruct (mapM _ names) as [k|e'] eqn:Em; [discriminate E|].
           cbn in E. injection E as <-.
           destruct (proj1 (IHraise e') eq_refl) as [-> Hex].
           split; [done|]. by apply Exists_cons_tl.
        -- intros [-> Hex]. apply Exists_cons in Hex as [Hn|Hex]; [congruence|].
           by rewrite (proj2 (IHraise KeyError)).
    + rewrite bind_raise_l. split.
      * intros problems. split; [discriminate|]. intros Hp.
        apply Forall2_cons_inv_l in Hp as (cls' & k & Ec & _). congruence.
      * intros e. split.
        -- intros [= <-]. split; [done|]. by apply Exists_cons_hd.
        -- by intros [-> _].
Qed.

Lemma prep_problems_KeyError_iff_unknown_name_witness :
  _prep_problems example_registry ["TSP"; "M2SAT"]%string
    = Ok [example_class 2 7%Q; example_class 1 5%Q] /\
  _prep_problems example_registry ["TSP"; "QA"]%string = Raise KeyError.
Proof.
  split.
  - apply (proj1 (prep_problems_KeyError_iff_unknown_name example_registry
                    ["TSP"; "M2SAT"]%string)).
    repeat constructor.
  - apply (proj2 (prep_problems_KeyError_iff_unknown_name example_registry
                    ["TSP"; "QA"]%string)).
    split; [reflexivity|]. apply Exists_cons_tl, Exists_cons_hd. by vm_compute.
Defined.
